(** * bfclient: a distance-vector (Bellman-Ford) routing node

    Shallow embedding of [bfclient.py]: the table [nodes], the relaxation
    pass [estimate_costs], the advertisement handlers [update_costs] and
    [broadcast_costs], the link commands [linkchange], [linkdown], [linkup]
    and the per-neighbor [ResettableTimer].

    Conventions of the embedding.
    - A Python [dict] is an insertion-ordered association list: the order is
      the iteration order of [for ... in d.items()], which decides ties in
      [estimate_costs].
    - A path cost is a Python number: an integer, of any size, or
      [float("inf")]; the other floats (fractions, negative infinity, NaN)
      are left out.  The sum of an integer and [float("inf")] converts the
      integer to a float and raises [OverflowError] when it is too large.
    - A node of the table is a Python dict with the keys ['cost'],
      ['is_neighbor'], ['route'] always present and the keys ['direct'],
      ['costs'], ['saved'], ['silence_monitor'] present or not; reading an
      absent key raises [KeyError].
    - Handlers print a message and return; the message is the [reply].
    - A handler that raises returns [Raise]; the table it leaves half
      mutated is not kept.
    - An address is the key that [addr2key] makes of a host and a port;
      [key2addr] is its inverse, and neither is in the source.
    - Wall-clock time is an integer number of ticks, passed to the handlers
      that start a timer. *)

From Stdlib Require Import ZArith List String Bool Lia.
Import ListNotations.

Local Open Scope string_scope.
Local Open Scope Z_scope.
Local Open Scope list_scope.

#[local] Arguments Z.mul : simpl never.
#[local] Arguments Z.add : simpl never.

(** ** Exceptions *)

Inductive exn : Type :=
| KeyError (key : string)
| RuntimeError (msg : string)
| OverflowError (msg : string).

Inductive res (A : Type) : Type :=
| Ok (a : A)
| Raise (e : exn).

Arguments Ok {A} a.
Arguments Raise {A} e.

Definition bind {A B : Type} (m : res A) (k : A -> res B) : res B :=
  match m with
  | Ok a => k a
  | Raise e => Raise e
  end.

Notation "x <- m ;; k" := (bind m (fun x => k))
  (at level 61, m at next level, right associativity).
Notation "' pat <- m ;; k" := (bind m (fun x => match x with pat => k end))
  (at level 61, pat pattern, m at next level, right associativity).

(** [d[key]] on one optional key of a node. *)
Definition getkey {A : Type} (key : string) (field : option A) : res A :=
  match field with
  | Some a => Ok a
  | None => Raise (KeyError key)
  end.

(** ** Numbers: integers and [float("inf")] *)

Inductive number : Type :=
| Fin (z : Z)
| Inf.

(** The sum of two numbers, as a number: what [a + b] is when Python
    computes it.  It is the sum of the statements. *)
Definition add (a b : number) : number :=
  match a, b with
  | Fin x, Fin y => Fin (x + y)
  | _, _ => Inf
  end.

(** An integer converts to a float when, rounded to the nearest double, it
    is below 2^1024: the largest double is 2^1024 - 2^971, and the integers
    from 2^1024 - 2^970 on round up to 2^1024. *)
Definition fits_float (x : Z) : bool :=
  Z.abs x <? 2 ^ 1024 - 2 ^ 970.

(** [a + b] as Python evaluates it: the sum of two integers is exact; with
    [float("inf")] on one side the integer on the other side is converted
    to a float first, which raises when the integer is too large. *)
Definition number_add (a b : number) : res number :=
  match a, b with
  | Fin x, Fin y => Ok (Fin (x + y))
  | Fin x, Inf => if fits_float x then Ok Inf
                  else Raise (OverflowError "int too large to convert to float")
  | Inf, Fin y => if fits_float y then Ok Inf
                  else Raise (OverflowError "int too large to convert to float")
  | Inf, Inf => Ok Inf
  end.

(** The sum [a + b] does not overflow. *)
Definition addable (a b : number) : bool :=
  match a, b with
  | Fin x, Inf => fits_float x
  | Inf, Fin y => fits_float y
  | _, _ => true
  end.

(** A number that is +infinity or converts to a float. *)
Definition fits (a : number) : bool :=
  match a with
  | Fin x => fits_float x
  | Inf => true
  end.

Definition ltb (a b : number) : bool :=
  match a, b with
  | Fin x, Fin y => x <? y
  | Fin _, Inf => true
  | Inf, _ => false
  end.

(** The order of the numbers, for the statements. *)
Definition le (a b : number) : Prop :=
  match a, b with
  | Fin x, Fin y => x <= y
  | _, Inf => True
  | Inf, Fin _ => False
  end.

(** ** Dictionaries in insertion order *)

Definition addr : Type := string.

Section Dict.
Context {V : Type}.

Definition dict : Type := list (addr * V).

(** [d.get(k)] *)
Fixpoint get (k : addr) (d : dict) : option V :=
  match d with
  | [] => None
  | (k', v) :: rest => if String.eqb k' k then Some v else get k rest
  end.

(** [k in d] *)
Definition contains (k : addr) (d : dict) : bool :=
  match get k d with
  | Some _ => true
  | None => false
  end.

(** [d[k] = v]: a present key keeps its place, a new one goes last. *)
Fixpoint set (k : addr) (v : V) (d : dict) : dict :=
  match d with
  | [] => [(k, v)]
  | (k', v') :: rest =>
      if String.eqb k' k then (k, v) :: rest else (k', v') :: set k v rest
  end.

(** [del d[k]] *)
Fixpoint del (k : addr) (d : dict) : dict :=
  match d with
  | [] => []
  | (k', v') :: rest =>
      if String.eqb k' k then rest else (k', v') :: del k rest
  end.

(** Mutation of the object stored under [k], through its reference. *)
Fixpoint update (k : addr) (f : V -> V) (d : dict) : dict :=
  match d with
  | [] => []
  | (k', v') :: rest =>
      if String.eqb k' k then (k', f v') :: rest else (k', v') :: update k f rest
  end.

Definition keys (d : dict) : list addr := map fst d.
End Dict.

Arguments dict V : clear implicits.

(** The vector of an advertisement: destination -> cost. *)
Definition vector : Type := dict number.

(** ** Timers *)

(** The function a timer calls; the only one the program registers is
    [linkdown]. *)
Inductive callback : Type :=
| cb_linkdown.

(** [threading.Timer]: [start()] records the time, [cancel()] sets the
    [finished] flag; the thread calls its function on its arguments once [interval] has
    passed since the start, unless [finished] is set by then, and sets
    [finished] afterwards. *)
Record Timer : Type := mk_Timer {
  Timer_interval : Z;
  Timer_function : callback;
  Timer_args : addr;
  Timer_started : option Z;
  Timer_finished : bool
}.

Definition Timer_start (now : Z) (t : Timer) : res Timer :=
  match Timer_started t with
  | Some _ => Raise (RuntimeError "threads can only be started once")
  | None =>
      Ok (mk_Timer (Timer_interval t) (Timer_function t) (Timer_args t)
            (Some now) (Timer_finished t))
  end.

Definition Timer_cancel (t : Timer) : Timer :=
  mk_Timer (Timer_interval t) (Timer_function t) (Timer_args t)
    (Timer_started t) true.

(** The time at which a timer calls its function, if it is to call it. *)
Definition Timer_deadline (t : Timer) : option Z :=
  match Timer_started t, Timer_finished t with
  | Some since, false => Some (since + Timer_interval t)
  | _, _ => None
  end.

Record ResettableTimer : Type := mk_ResettableTimer {
  interval : Z;
  func : callback;
  args : addr;
  countdown : Timer
}.

Definition create_timer (i : Z) (f : callback) (a : addr) : Timer :=
  mk_Timer i f a None false.

Definition ResettableTimer_init (i : Z) (f : callback) (a : addr)
  : ResettableTimer :=
  mk_ResettableTimer i f a (create_timer i f a).

Definition with_countdown (m : ResettableTimer) (t : Timer) : ResettableTimer :=
  mk_ResettableTimer (interval m) (func m) (args m) t.

Definition start (now : Z) (m : ResettableTimer) : res ResettableTimer :=
  t <- Timer_start now (countdown m) ;;
  Ok (with_countdown m t).

Definition cancel (m : ResettableTimer) : ResettableTimer :=
  with_countdown m (Timer_cancel (countdown m)).

(** [reset()], with the countdown it leaves behind: the old countdown is
    cancelled, a new one takes its place in the monitor and is started. *)
Definition reset_with_old (now : Z) (m : ResettableTimer)
  : res (ResettableTimer * Timer) :=
  let old := Timer_cancel (countdown m) in
  let m := with_countdown m (create_timer (interval m) (func m) (args m)) in
  m <- start now m ;;
  Ok (m, old).

Definition reset (now : Z) (m : ResettableTimer) : res ResettableTimer :=
  r <- reset_with_old now m ;;
  Ok (fst r).

(** ** Nodes *)

Record node : Type := mk_node {
  cost : number;
  is_neighbor : bool;
  route : addr;
  direct : option number;
  costs : option vector;
  saved : option number;
  silence_monitor : option ResettableTimer
}.

Definition default_node : node :=
  mk_node Inf false "" None None None None.

Definition set_cost (c : number) (n : node) : node :=
  mk_node c (is_neighbor n) (route n) (direct n) (costs n) (saved n)
    (silence_monitor n).

Definition set_is_neighbor (b : bool) (n : node) : node :=
  mk_node (cost n) b (route n) (direct n) (costs n) (saved n)
    (silence_monitor n).

Definition set_route (r : addr) (n : node) : node :=
  mk_node (cost n) (is_neighbor n) r (direct n) (costs n) (saved n)
    (silence_monitor n).

Definition set_direct (d : option number) (n : node) : node :=
  mk_node (cost n) (is_neighbor n) (route n) d (costs n) (saved n)
    (silence_monitor n).

Definition set_costs (v : option vector) (n : node) : node :=
  mk_node (cost n) (is_neighbor n) (route n) (direct n) v (saved n)
    (silence_monitor n).

Definition set_saved (d : option number) (n : node) : node :=
  mk_node (cost n) (is_neighbor n) (route n) (direct n) (costs n) d
    (silence_monitor n).

Definition set_silence_monitor (m : option ResettableTimer) (n : node) : node :=
  mk_node (cost n) (is_neighbor n) (route n) (direct n) (costs n) (saved n) m.

(** The table [nodes]. *)
Definition table : Type := dict node.

(** Modelled from the spec: the definition of [nodes] is not in the source.
    The Topology Store's [get(addr)] "creates a default entry on first
    reference": [nodes] is a [defaultdict] whose factory is [default_node],
    and [nodes[addr]] on an absent address inserts the default node (last in
    the order) and returns it.  Line 88 of the source reads [nodes[addr]]
    right after [del nodes[addr]], which only such a table allows. *)
Definition nodes_getitem (a : addr) (nodes : table) : node * table :=
  match get a nodes with
  | Some n => (n, nodes)
  | None => (default_node, nodes ++ [(a, default_node)])
  end.

(** Modelled from the spec: [get_neighbors] is not in the source.
    [neighbors()] is the "subset with isNeighbor=true".  The spec gives no
    order for it; the order of the table is taken here, and no statement
    below depends on that choice: they speak of the order of
    [get_neighbors nodes] itself, or of membership. *)
Definition get_neighbors (nodes : table) : table :=
  filter (fun kv => is_neighbor (snd kv)) nodes.

(** Modelled from the spec: [in_network] is not in the source.  An address
    is unknown ("never seen") when it has no entry in the table. *)
Definition in_network (a : addr) (nodes : table) : bool :=
  contains a nodes.

(** What a command handler prints before it returns. *)
Inductive reply : Type :=
| Done
| NodeNotInNetwork          (* get_node: 'node not in network' *)
| NotNeighborCantChange     (* linkchange: "... is not a neighbor so the link cost can't be changed" *)
| MinimumLinkCost           (* linkchange: "the minimum amount a link cost between nodes can be is 1" *)
| LinkCurrentlyDown         (* linkchange: "this link currently down. please first bring link back to life using LINKUP cmd." *)
| NotNeighborCantTakeDown   (* linkdown: "... is not a neighbor so it can't be taken down" *)
| WasntPreviousNeighbor.    (* linkup: "... wasn't a previous neighbor" *)

(** The message sent to one neighbor: [payload.costs] and
    [payload.neighbor.direct]. *)
Record payload : Type := mk_payload {
  payload_costs : vector;
  payload_neighbor_direct : number
}.

Section Client.
(** The address of this node and [run_args.timeout], the period of the
    broadcast; both are set at start-up, outside the source. *)
Variable me : addr.
Variable timeout : Z.

(** *** estimate_costs *)

(** The inner loop of [estimate_costs] over the neighbors, with the
    running [(cost, nexthop)]. *)
Fixpoint cheapest (destination_addr : addr) (neighbors : table)
    (best : number * addr) : res (number * addr) :=
  match neighbors with
  | [] => Ok best
  | (neighbor_addr, neighbor) :: rest =>
      v <- getkey "costs" (costs neighbor) ;;
      match get destination_addr v with
      | Some c =>
          d <- getkey "direct" (direct neighbor) ;;
          dist <- number_add d c ;;
          if ltb dist (fst best)
          then cheapest destination_addr rest (dist, neighbor_addr)
          else cheapest destination_addr rest best
      | None => cheapest destination_addr rest best
      end
  end.

(** The outer loop: the destinations still to visit, and the table as
    mutated so far. *)
Fixpoint estimate_loop (todo : list addr) (nodes : table) : res table :=
  match todo with
  | [] => Ok nodes
  | destination_addr :: rest =>
      if String.eqb destination_addr me then estimate_loop rest nodes
      else
        best <- cheapest destination_addr (get_neighbors nodes) (Inf, "") ;;
        estimate_loop rest
          (update destination_addr
             (fun destination =>
                set_route (snd best) (set_cost (fst best) destination))
             nodes)
  end.

Definition estimate_costs (nodes : table) : res table :=
  estimate_loop (keys nodes) nodes.

(** *** create_node *)

(** [create_node(cost, is_neighbor, direct, costs, addr)].  The default of
    [costs] is an empty [defaultdict]: no destination is [in] it.  The
    arguments of the monitor are [key2addr(addr)], the host and port that
    [linkdown] turns back into [addr]. *)
Definition create_node (now : Z) (cost : number) (is_neighbor : bool)
    (direct : option number) (costs : option vector) (a : addr) : res node :=
  let node := default_node in
  let node := set_cost cost node in
  let node := set_is_neighbor is_neighbor node in
  let node :=
    set_direct (Some match direct with Some d => d | None => Inf end) node in
  let node :=
    set_costs (Some match costs with Some v => v | None => [] end) node in
  if is_neighbor then
    let node := set_route a node in
    let monitor := ResettableTimer_init (3 * timeout) cb_linkdown a in
    monitor <- start now monitor ;;
    Ok (set_silence_monitor (Some monitor) node)
  else Ok node.

(** *** update_costs *)

(** Lines 78-81: a default node for every address of [costs] that the
    table does not have. *)
Definition create_missing (costs : vector) (nodes : table) : table :=
  fold_left
    (fun nodes node =>
       if contains node nodes then nodes else set node default_node nodes)
    (keys costs) nodes.

(** Lines 86-92: the sender becomes a neighbor.  [nodes[addr]['cost']] is
    read after [del nodes[addr]]. *)
Definition make_neighbor (now : Z) (a : addr) (costs : vector)
    (direct : number) (nodes : table) : res table :=
  let nodes := del a nodes in
  let '(fresh, nodes) := nodes_getitem a nodes in
  node <- create_node now (cost fresh) true (Some direct) (Some costs) a ;;
  Ok (set a node nodes).

(** Lines 95-98: the sender is a neighbor already. *)
Definition refresh_neighbor (now : Z) (a : addr) (costs : vector)
    (nodes : table) : res table :=
  let '(node, nodes) := nodes_getitem a nodes in
  let node := set_costs (Some costs) node in
  monitor <- getkey "silence_monitor" (silence_monitor node) ;;
  monitor <- reset now monitor ;;
  Ok (update a
        (fun n => set_silence_monitor (Some monitor) (set_costs (Some costs) n))
        nodes).

(** [update_costs(host, port, costs=..., neighbor={'direct': ...})], with
    [a = addr2key(host, port)]. *)
Definition update_costs (now : Z) (a : addr) (costs : vector)
    (direct : number) (nodes : table) : res table :=
  let nodes := create_missing costs nodes in
  let '(sender, nodes) := nodes_getitem a nodes in
  nodes <- (if negb (is_neighbor sender)
            then make_neighbor now a costs direct nodes
            else refresh_neighbor now a costs nodes) ;;
  estimate_costs nodes.

(** *** broadcast_costs *)

(** Lines 108-115: the copy of [costs] for one neighbor.  [nodes[dest_addr]]
    is read at the keys of [nodes] itself, so it inserts nothing. *)
Definition poison (neighbor_addr : addr) (nodes : table) (costs : vector)
  : vector :=
  fold_left
    (fun poisoned_costs dest =>
       let dest_addr := fst dest in
       if negb (String.eqb dest_addr me || String.eqb dest_addr neighbor_addr)
       then
         if String.eqb (route (fst (nodes_getitem dest_addr nodes)))
              neighbor_addr
         then set dest_addr Inf poisoned_costs
         else poisoned_costs
       else poisoned_costs)
    costs costs.

Fixpoint broadcast_loop (neighbors : table) (nodes : table) (costs : vector)
  : res (list (addr * payload)) :=
  match neighbors with
  | [] => Ok []
  | (neighbor_addr, neighbor) :: rest =>
      let poisoned_costs := poison neighbor_addr nodes costs in
      d <- getkey "direct" (direct neighbor) ;;
      sent <- broadcast_loop rest nodes costs ;;
      Ok ((neighbor_addr, mk_payload poisoned_costs d) :: sent)
  end.

(** The datagrams of one broadcast, each with the neighbor it goes to. *)
Definition broadcast_costs (nodes : table) : res (list (addr * payload)) :=
  let costs := map (fun kv => (fst kv, cost (snd kv))) nodes in
  broadcast_loop (get_neighbors nodes) nodes costs.

(** *** The link commands *)

(** [get_node(host, port)]: the node, and whether the address was unknown.
    [nodes[addr]] is read in both cases. *)
Definition get_node (a : addr) (nodes : table) : node * bool * table :=
  let error := negb (in_network a nodes) in
  let '(node, nodes) := nodes_getitem a nodes in
  (node, error, nodes).

Definition linkchange (a : addr) (new_direct : number) (nodes : table)
  : res (reply * table) :=
  let '(node, err, nodes) := get_node a nodes in
  if err then Ok (NodeNotInNetwork, nodes)
  else if negb (is_neighbor node) then Ok (NotNeighborCantChange, nodes)
  else if ltb new_direct (Fin 1) then Ok (MinimumLinkCost, nodes)
  else match saved node with
       | Some _ => Ok (LinkCurrentlyDown, nodes)
       | None =>
           nodes <- estimate_costs
                      (update a (set_direct (Some new_direct)) nodes) ;;
           Ok (Done, nodes)
       end.

Definition linkdown (a : addr) (nodes : table) : res (reply * table) :=
  let '(node, err, nodes) := get_node a nodes in
  if err then Ok (NodeNotInNetwork, nodes)
  else if negb (is_neighbor node) then Ok (NotNeighborCantTakeDown, nodes)
  else
    d <- getkey "direct" (direct node) ;;
    monitor <- getkey "silence_monitor" (silence_monitor node) ;;
    nodes <- estimate_costs
               (update a
                  (fun n =>
                     set_silence_monitor (Some (cancel monitor))
                       (set_is_neighbor false
                          (set_direct (Some Inf) (set_saved (Some d) n))))
                  nodes) ;;
    Ok (Done, nodes).

Definition linkup (a : addr) (nodes : table) : res (reply * table) :=
  let '(node, err, nodes) := get_node a nodes in
  if err then Ok (NodeNotInNetwork, nodes)
  else match saved node with
       | None => Ok (WasntPreviousNeighbor, nodes)
       | Some d =>
           nodes <- estimate_costs
                      (update a
                         (fun n =>
                            set_is_neighbor true
                              (set_saved None (set_direct (Some d) n)))
                         nodes) ;;
           Ok (Done, nodes)
       end.

(** *** Expiry of a silence monitor *)

Definition run_callback (f : callback) (a : addr) (nodes : table)
  : res (reply * table) :=
  match f with
  | cb_linkdown => linkdown a nodes
  end.

(** A started countdown that nobody cancelled calls its function once its
    interval has passed. *)
Definition due (now : Z) (monitor : ResettableTimer) : bool :=
  match Timer_deadline (countdown monitor) with
  | Some deadline => deadline <=? now
  | None => false
  end.

(** The thread of the countdown of [monitor], the monitor of node [a]:
    the call, then the [finished] flag. *)
Definition silence_expired (a : addr) (monitor : ResettableTimer)
    (nodes : table) : res table :=
  let t := countdown monitor in
  '(_, nodes) <- run_callback (Timer_function t) (Timer_args t) nodes ;;
  Ok (update a
        (fun n =>
           match silence_monitor n with
           | Some m => set_silence_monitor (Some (cancel m)) n
           | None => n
           end)
        nodes).

(** *** The events of a run *)

(** One completed operation.  An address that comes from [addr2key] has
    the form host:port and is not the empty string. *)
Inductive step (nodes : table) : table -> Prop :=
| step_update_costs now a costs direct nodes' :
    a <> "" ->
    update_costs now a costs direct nodes = Ok nodes' ->
    step nodes nodes'
| step_broadcast_costs sent :
    broadcast_costs nodes = Ok sent ->
    step nodes nodes
| step_linkchange a new_direct r nodes' :
    a <> "" ->
    linkchange a new_direct nodes = Ok (r, nodes') ->
    step nodes nodes'
| step_linkdown a r nodes' :
    a <> "" ->
    linkdown a nodes = Ok (r, nodes') ->
    step nodes nodes'
| step_linkup a r nodes' :
    a <> "" ->
    linkup a nodes = Ok (r, nodes') ->
    step nodes nodes'
| step_silence now a n monitor nodes' :
    get a nodes = Some n ->
    silence_monitor n = Some monitor ->
    due now monitor = true ->
    silence_expired a monitor nodes = Ok nodes' ->
    step nodes nodes'.

Inductive reachable : table -> Prop :=
| reachable_init nodes :
    NoDup (keys nodes) ->
    Forall (fun kv => snd kv = default_node) nodes ->
    reachable nodes
| reachable_step nodes nodes' :
    reachable nodes -> step nodes nodes' -> reachable nodes'.

(** *** The words of the specification *)

(** [neighbor.directCost]: "+infinity if not a neighbor". *)
Definition directCost (n : node) : number :=
  match direct n with
  | Some d => d
  | None => Inf
  end.

(** [neighbor.advertisedVector.get(destination, +infinity)]. *)
Definition advertised (n : node) (destination : addr) : number :=
  match costs n with
  | Some v =>
      match get destination v with
      | Some c => c
      | None => Inf
      end
  | None => Inf
  end.

Definition candidate (destination : addr) (neighbor : node) : number :=
  add (directCost neighbor) (advertised neighbor destination).

(** Every sum that the relaxation can ask for, of the ['direct'] of a
    neighbor and a cost of its vector, is one that does not overflow. *)
Definition sums_defined (nodes : table) : Prop :=
  forall b nb d v D c,
    In (b, nb) (get_neighbors nodes) ->
    direct nb = Some d -> costs nb = Some v -> get D v = Some c ->
    addable d c = true.

(** The numbers of a vector, of a node and of a table are +infinity or
    convert to a float. *)
Definition vector_fits (v : vector) : bool :=
  forallb (fun kv => fits (snd kv)) v.

Definition node_fits (n : node) : bool :=
  match direct n with Some d => fits d | None => true end &&
  match saved n with Some d => fits d | None => true end &&
  match costs n with Some v => vector_fits v | None => true end.

Definition numbers_fit (nodes : table) : bool :=
  forallb (fun kv => node_fits (snd kv)) nodes.

(** A neighbor carries the keys the loops read. *)
Definition neighbors_complete (nodes : table) : Prop :=
  forall a n, In (a, n) (get_neighbors nodes) ->
    direct n <> None /\ costs n <> None.

(** Two tables with the same addresses in the same order whose nodes
    differ in ['cost'] and ['route'] at most. *)
Definition same_link (n n' : node) : Prop :=
  is_neighbor n = is_neighbor n' /\ direct n = direct n' /\
  costs n = costs n' /\ saved n = saved n' /\
  silence_monitor n = silence_monitor n'.

Definition same_links (nodes nodes' : table) : Prop :=
  Forall2 (fun kv kv' => fst kv = fst kv' /\ same_link (snd kv) (snd kv'))
    nodes nodes'.

(** The monitor of the node at [a] is the one [create_node] builds. *)
Definition monitor_ok (a : addr) (m : ResettableTimer) : Prop :=
  interval m = 3 * timeout /\ func m = cb_linkdown /\ args m = a /\
  Timer_interval (countdown m) = 3 * timeout /\
  Timer_function (countdown m) = cb_linkdown /\
  Timer_args (countdown m) = a.

(** The shape of a node of the table: a neighbor, or a link taken down,
    comes from an address of the form host:port and has ['direct'],
    ['costs'] and a monitor; a neighbor has no ['saved']. *)
Definition node_ok (a : addr) (n : node) : Prop :=
  (is_neighbor n = true \/ saved n <> None ->
     a <> "" /\ direct n <> None /\ costs n <> None /\
     silence_monitor n <> None) /\
  (forall m, silence_monitor n = Some m -> monitor_ok a m) /\
  (is_neighbor n = true -> saved n = None).

Definition table_ok (nodes : table) : Prop :=
  NoDup (keys nodes) /\
  forall a n, In (a, n) nodes -> node_ok a n.

(** The routes of a table are consistent: a next hop exactly where the
    cost is finite, for every destination but this node. *)
Definition routes_consistent (nodes : table) : Prop :=
  forall a n, In (a, n) nodes -> a <> me ->
    (route n <> "" <-> cost n <> Inf).

(** The entry of [a] holds what the scan of the neighbors of [nodes0]
    yields for [a]. *)
Definition settled (nodes0 : table) (a : addr) (nodes : table) : Prop :=
  forall n, get a nodes = Some n ->
    cheapest a (get_neighbors nodes0) (Inf, "") = Ok (cost n, route n).

(** The test of lines 111-113 for destination [D] and neighbor [N]. *)
Definition routed_via (nodes : table) (N D : addr) : bool :=
  negb (String.eqb D me || String.eqb D N) &&
  String.eqb (route (fst (nodes_getitem D nodes))) N.

(** The node [create_node] builds for a new neighbor. *)
Definition new_neighbor (now : Z) (c : number) (a : addr) (costs : vector)
    (d : number) : node :=
  mk_node c true a (Some d) (Some costs) None
    (Some (mk_ResettableTimer (3 * timeout) cb_linkdown a
             (mk_Timer (3 * timeout) cb_linkdown a (Some now) false))).

(** *** showrt and show_neighbors *)

(** [showrt()]: the rows it prints after the date, one per address other
    than this node: destination, cost, next hop. *)
Definition showrt (nodes : table) : list (addr * number * addr) :=
  map (fun kv => (fst kv, cost (snd kv), route (snd kv)))
    (filter (fun kv => negb (String.eqb (fst kv) me)) nodes).

(** The loop of [show_neighbors()]: the rows it prints after the date,
    one per neighbor: address, cost, direct cost. *)
Fixpoint show_neighbors_loop (neighbors : table)
  : res (list (addr * number * number)) :=
  match neighbors with
  | [] => Ok []
  | (a, neighbor) :: rest =>
      d <- getkey "direct" (direct neighbor) ;;
      rows <- show_neighbors_loop rest ;;
      Ok ((a, cost neighbor, d) :: rows)
  end.

Definition show_neighbors (nodes : table)
  : res (list (addr * number * number)) :=
  show_neighbors_loop (get_neighbors nodes).

(** *** Predicates of the further properties *)

(** The next hop of every destination but this node is empty or the
    address of a neighbor of the table. *)
Definition routes_via_neighbors (nodes : table) : Prop :=
  forall a n, In (a, n) nodes -> a <> me ->
    route n = "" \/ exists nb, In (route n, nb) nodes /\ is_neighbor nb = true.

(** A node that never was a neighbor has the three keys of
    [default_node] only. *)
Definition never_neighbor (n : node) : Prop :=
  direct n = None /\ costs n = None /\ saved n = None /\
  silence_monitor n = None.

(** A link taken down: ['direct'] is +infinity, the old value is in
    ['saved'], and the monitor is there and is never due. *)
Definition taken_down (n : node) : Prop :=
  direct n = Some Inf /\ costs n <> None /\ saved n <> None /\
  exists m, silence_monitor n = Some m /\
            Timer_finished (countdown m) = true.

(** Every destination of every stored vector has an entry. *)
Definition vectors_known (nodes : table) : Prop :=
  forall a n v D, In (a, n) nodes -> costs n = Some v ->
    In D (keys v) -> In D (keys nodes).

(** A property of the nodes, which may mention the addresses of the
    table, holds of every node of the table. *)
Definition table_all (P : list addr -> addr -> node -> Prop) (nodes : table)
  : Prop :=
  forall a n, In (a, n) nodes -> P (keys nodes) a n.

(** *** Example tables *)

(** The tables of a node ["A:1"] with [run_args.timeout = 10], as the
    handlers leave them. *)
Definition example_monitor (a : addr) (since : Z) (finished : bool)
  : ResettableTimer :=
  mk_ResettableTimer 30 cb_linkdown a
    (mk_Timer 30 cb_linkdown a (Some since) finished).

(** After the first advertisement of ["B:2"], with no destination and a
    claimed direct cost of 2, received at time 0. *)
Definition example_B_up : node :=
  mk_node Inf true "" (Some (Fin 2)) (Some []) None
    (Some (example_monitor "B:2" 0 false)).

Definition example_up : table := [("B:2", example_B_up)].

(** Then after [linkdown] on ["B:2"]. *)
Definition example_B_down : node :=
  mk_node Inf false "" (Some Inf) (Some []) (Some (Fin 2))
    (Some (example_monitor "B:2" 0 true)).

Definition example_down : table := [("B:2", example_B_down)].

(** Then after [linkup] on ["B:2"]. *)
Definition example_B_restored : node :=
  mk_node Inf true "" (Some (Fin 2)) (Some []) None
    (Some (example_monitor "B:2" 0 true)).

Definition example_restored : table := [("B:2", example_B_restored)].

(** After the first advertisement of ["C:3"], with a cost of 4 to ["B:2"]
    and a claimed direct cost of 1, received at time 0: ["B:2"] is known,
    at cost 5 through ["C:3"], and is not a neighbor. *)
Definition example_B_routed : node :=
  mk_node (Fin 5) false "C:3" None None None None.

Definition example_C_up : node :=
  mk_node Inf true "" (Some (Fin 1)) (Some [("B:2", Fin 4)]) None
    (Some (example_monitor "C:3" 0 false)).

Definition example_routed : table :=
  [("B:2", example_B_routed); ("C:3", example_C_up)].

(** A table with this node only, at cost 0 to itself. *)
Definition example_self : table :=
  [("A:1", mk_node (Fin 0) false "" None None None None)].

(** A table, as no run makes it, with a neighbor that has no vector. *)
Definition example_no_vector : table :=
  [("B:2", mk_node Inf true "" (Some (Fin 2)) None None None)].

(** [example_up] after an advertisement of ["B:2"] received at time 20,
    with a cost of 5 to ["C:3"] and a claimed direct cost of 9. *)
Definition example_merged : table :=
  [("B:2", mk_node Inf true "" (Some (Fin 2)) (Some [("C:3", Fin 5)]) None
             (Some (example_monitor "B:2" 20 false)));
   ("C:3", mk_node (Fin 7) false "B:2" None None None None)].

(** The datagram that a broadcast on [example_routed] sends to ["C:3"]. *)
Definition example_payload : payload :=
  mk_payload [("B:2", Inf); ("C:3", Inf)] (Fin 1).

(** Two neighbors that offer ["B:2"] at the same cost of 5. *)
Definition example_D_up : node :=
  mk_node Inf true "" (Some (Fin 2)) (Some [("B:2", Fin 3)]) None
    (Some (example_monitor "D:4" 0 false)).

Definition example_tie : table :=
  [("C:3", example_C_up); ("D:4", example_D_up)].

(** A neighbor as lines 86-92 make it, whose link cost is an integer too
    large for a float and whose vector holds +infinity for ["C:3"]. *)
Definition example_B_huge : node :=
  mk_node Inf true "B:2" (Some (Fin (2 ^ 1024))) (Some [("C:3", Inf)]) None
    (Some (example_monitor "B:2" 0 false)).

Definition example_huge : table :=
  [("C:3", default_node); ("B:2", example_B_huge)].

(** ** Numbers *)

Lemma le_refl (a : number) : le a a.
Proof. destruct a; simpl; lia. Qed.

Lemma le_trans (a b c : number) : le a b -> le b c -> le a c.
Proof. destruct a, b, c; simpl; try tauto; lia. Qed.

Lemma le_Inf (a : number) : le a Inf.
Proof. destruct a; exact I. Qed.

Lemma ltb_true_le (a b : number) : ltb a b = true -> le a b.
Proof.
  destruct a, b; simpl; try discriminate; auto.
  intros H. apply Z.ltb_lt in H. lia.
Qed.

Lemma ltb_false_le (a b : number) : ltb a b = false -> le b a.
Proof.
  destruct a, b; simpl; try discriminate; auto.
  intros H. apply Z.ltb_ge in H. lia.
Qed.

Lemma ltb_true_finite (a b : number) : ltb a b = true -> a <> Inf.
Proof. destruct a; simpl; congruence. Qed.

Lemma ltb_le_trans (a b c : number) :
  ltb a b = true -> le b c -> ltb a c = true.
Proof.
  destruct a, b, c; simpl; try discriminate; try tauto.
  intros H1 H2. apply Z.ltb_lt in H1. apply Z.ltb_lt. lia.
Qed.

Lemma number_add_Ok (a b s : number) :
  number_add a b = Ok s -> s = add a b.
Proof.
  destruct a as [x|], b as [y|]; simpl.
  - now intros [= <-].
  - destruct (fits_float x); [now intros [= <-] | discriminate].
  - destruct (fits_float y); [now intros [= <-] | discriminate].
  - now intros [= <-].
Qed.

Lemma number_add_addable (a b : number) :
  addable a b = true -> number_add a b = Ok (add a b).
Proof.
  destruct a as [x|], b as [y|]; simpl; try reflexivity; now intros ->.
Qed.


Lemma fits_addable (a b : number) :
  fits a = true -> fits b = true -> addable a b = true.
Proof. destruct a, b; simpl; auto. Qed.

(** ** Dictionaries *)

Section DictFacts.
Context {V : Type}.
Implicit Types (d : dict V) (k : addr) (v : V).

Lemma get_In k d v : get k d = Some v -> In (k, v) d.
Proof.
  induction d as [|[k' v'] d IH]; simpl; [discriminate|].
  destruct (String.eqb_spec k' k) as [->|Hne].
  - intros [= ->]. now left.
  - intros H. right. auto.
Qed.

Lemma get_None_keys k d : get k d = None <-> ~ In k (keys d).
Proof.
  induction d as [|[k' v'] d IH]; simpl; [tauto|].
  destruct (String.eqb_spec k' k) as [->|Hne].
  - split; [discriminate | intros H; exfalso; apply H; now left].
  - rewrite IH. split; [intros H [E|E]; auto | tauto].
Qed.

Lemma In_get k d v : NoDup (keys d) -> In (k, v) d -> get k d = Some v.
Proof.
  induction d as [|[k' v'] d IH]; simpl; [tauto|].
  intros Hnd [E|E].
  - injection E as -> ->. now rewrite String.eqb_refl.
  - inversion Hnd as [|? ? Hnotin Hnd']; subst.
    destruct (String.eqb_spec k' k) as [->|Hne]; [|auto].
    exfalso. apply Hnotin. change k with (fst (k, v)).
    now apply in_map.
Qed.

Lemma get_Some_keys k d v : get k d = Some v -> In k (keys d).
Proof.
  intros H. apply get_In in H. change k with (fst (k, v)).
  now apply in_map.
Qed.

Lemma keys_update k f d : keys (update k f d) = keys d.
Proof.
  induction d as [|[k' v'] d IH]; simpl; [reflexivity|].
  destruct (String.eqb k' k); simpl; [reflexivity | now rewrite IH].
Qed.

Lemma get_update_same k f d :
  get k (update k f d) = option_map f (get k d).
Proof.
  induction d as [|[k' v'] d IH]; simpl; [reflexivity|].
  destruct (String.eqb k' k) eqn:E; simpl; rewrite E; auto.
Qed.

Lemma get_update_other k k' f d :
  k <> k' -> get k' (update k f d) = get k' d.
Proof.
  intros Hne. induction d as [|[k0 v0] d IH]; simpl; [reflexivity|].
  destruct (String.eqb_spec k0 k) as [->|Hne0]; simpl.
  - destruct (String.eqb_spec k k'); [contradiction | reflexivity].
  - destruct (String.eqb k0 k'); auto.
Qed.

Lemma update_id k f d :
  (forall v, get k d = Some v -> f v = v) -> update k f d = d.
Proof.
  induction d as [|[k' v'] d IH]; simpl; [reflexivity|].
  destruct (String.eqb k' k); intros H.
  - now rewrite H.
  - now rewrite IH.
Qed.

Lemma update_absent k f d : get k d = None -> update k f d = d.
Proof. intros H. apply update_id. congruence. Qed.

Lemma In_update k f d k' v' :
  In (k', v') (update k f d) ->
  In (k', v') d \/ exists v, k' = k /\ In (k, v) d /\ v' = f v.
Proof.
  induction d as [|[k0 v0] d IH]; simpl; [tauto|].
  destruct (String.eqb_spec k0 k) as [->|Hne]; simpl.
  - intros [E|E]; [|tauto].
    injection E as <- <-. right. exists v0. auto.
  - intros [E|E]; [tauto|].
    destruct (IH E) as [H|(v & -> & H & ->)]; [tauto|].
    right. exists v. auto.
Qed.

Lemma get_set_same k v d : get k (set k v d) = Some v.
Proof.
  induction d as [|[k' v'] d IH]; simpl.
  - now rewrite String.eqb_refl.
  - destruct (String.eqb k' k) eqn:E; simpl.
    + now rewrite String.eqb_refl.
    + now rewrite E.
Qed.

Lemma get_set_other k k' v d : k <> k' -> get k' (set k v d) = get k' d.
Proof.
  intros Hne. induction d as [|[k0 v0] d IH]; simpl.
  - destruct (String.eqb_spec k k'); [contradiction | reflexivity].
  - destruct (String.eqb_spec k0 k) as [->|Hne0]; simpl.
    + destruct (String.eqb_spec k k'); [contradiction | reflexivity].
    + destruct (String.eqb k0 k'); auto.
Qed.

Lemma keys_set_present k v d :
  In k (keys d) -> keys (set k v d) = keys d.
Proof.
  induction d as [|[k' v'] d IH]; simpl; [tauto|].
  destruct (String.eqb_spec k' k) as [->|Hne]; simpl; [reflexivity|].
  intros [E|E]; [contradiction|]. now rewrite IH.
Qed.

Lemma keys_set_absent k v d :
  ~ In k (keys d) -> keys (set k v d) = keys d ++ [k].
Proof.
  induction d as [|[k' v'] d IH]; simpl; [reflexivity|].
  destruct (String.eqb_spec k' k) as [->|Hne]; simpl.
  - intros H. exfalso. apply H. now left.
  - intros H. rewrite IH; tauto.
Qed.

Lemma In_set k v d k' v' :
  In (k', v') (set k v d) -> In (k', v') d \/ (k' = k /\ v' = v).
Proof.
  induction d as [|[k0 v0] d IH]; simpl.
  - intros [E|[]]. injection E as <- <-. auto.
  - destruct (String.eqb_spec k0 k) as [->|Hne]; simpl.
    + intros [E|E]; [injection E as <- <-; auto | tauto].
    + intros [E|E]; [tauto|]. destruct (IH E); tauto.
Qed.

Lemma get_del_other k k' d : k <> k' -> get k' (del k d) = get k' d.
Proof.
  intros Hne. induction d as [|[k0 v0] d IH]; simpl; [reflexivity|].
  destruct (String.eqb_spec k0 k) as [->|Hne0]; simpl.
  - destruct (String.eqb_spec k k'); [contradiction | reflexivity].
  - destruct (String.eqb k0 k'); auto.
Qed.

Lemma In_del k d kv : In kv (del k d) -> In kv d.
Proof.
  induction d as [|[k0 v0] d IH]; simpl; [tauto|].
  destruct (String.eqb k0 k); simpl; [tauto|].
  intros [E|E]; auto.
Qed.

Lemma NoDup_keys_del k d : NoDup (keys d) -> NoDup (keys (del k d)).
Proof.
  induction d as [|[k0 v0] d IH]; simpl; [auto|].
  intros Hnd. inversion Hnd as [|? ? Hnotin Hnd']; subst.
  destruct (String.eqb k0 k); simpl; [assumption|].
  constructor; [|auto].
  intros Hin. apply Hnotin. unfold keys in *.
  apply in_map_iff in Hin. destruct Hin as (kv & <- & Hin).
  apply in_map. eapply In_del. eassumption.
Qed.

Lemma get_del_same k d : NoDup (keys d) -> get k (del k d) = None.
Proof.
  induction d as [|[k0 v0] d IH]; simpl; [reflexivity|].
  intros Hnd. inversion Hnd as [|? ? Hnotin Hnd']; subst.
  destruct (String.eqb_spec k0 k) as [->|Hne]; simpl.
  - now apply get_None_keys.
  - destruct (String.eqb_spec k0 k); [contradiction | auto].
Qed.

Lemma NoDup_keys_set k v d : NoDup (keys d) -> NoDup (keys (set k v d)).
Proof.
  intros Hnd. destruct (in_dec string_dec k (keys d)) as [Hin|Hnotin].
  - now rewrite keys_set_present.
  - rewrite keys_set_absent by assumption.
    apply NoDup_app; [assumption | repeat constructor; simpl; tauto |].
    intros x Hx [E|[]]. subst x. exact (Hnotin Hx).
Qed.

Lemma get_app_absent k k' v d :
  get k d = None -> get k' (d ++ [(k, v)]) =
    if String.eqb k k' then Some v else get k' d.
Proof.
  induction d as [|[k0 v0] d IH]; simpl; [reflexivity|].
  destruct (String.eqb_spec k0 k) as [->|Hne]; [discriminate|].
  intros H. destruct (String.eqb_spec k0 k') as [->|Hne'].
  - destruct (String.eqb_spec k k'); [congruence | reflexivity].
  - auto.
Qed.
End DictFacts.

(** ** The inner loop *)

Lemma candidate_present (destination : addr) (n : node) v d c :
  costs n = Some v -> direct n = Some d -> get destination v = Some c ->
  candidate destination n = add d c.
Proof.
  intros Hv Hd Hc. unfold candidate, directCost, advertised.
  now rewrite Hv, Hd, Hc.
Qed.

Lemma candidate_absent (destination : addr) (n : node) v :
  costs n = Some v -> get destination v = None ->
  candidate destination n = Inf.
Proof.
  intros Hv Hc. unfold candidate, directCost, advertised.
  rewrite Hv, Hc. now destruct (direct n) as [[]|].
Qed.

(** What the scan of the neighbors returns: a lower bound of the running
    cost and of every candidate, which is the running pair itself or the
    candidate of a neighbor that beats the running cost. *)
Lemma cheapest_spec (destination : addr) (neighbors : table) :
  forall c0 r0 c r,
    cheapest destination neighbors (c0, r0) = Ok (c, r) ->
    le c c0 /\
    (forall b nb, In (b, nb) neighbors -> le c (candidate destination nb)) /\
    ((c = c0 /\ r = r0) \/
     (exists nb, In (r, nb) neighbors /\ candidate destination nb = c /\
                 ltb c c0 = true)).
Proof.
  induction neighbors as [|[b nb] rest IH]; intros c0 r0 c r; simpl.
  - intros [= -> ->]. split; [apply le_refl|]. split; [tauto | auto].
  - destruct (costs nb) as [v|] eqn:Hv; simpl; [|discriminate].
    destruct (get destination v) as [cv|] eqn:Hcv.
    + destruct (direct nb) as [d|] eqn:Hd; simpl; [|discriminate].
      pose proof (candidate_present destination nb v d cv Hv Hd Hcv) as Hcand.
      destruct (number_add d cv) as [dist|] eqn:Hsum; simpl; [|discriminate].
      apply number_add_Ok in Hsum. subst dist.
      destruct (ltb (add d cv) c0) eqn:Hlt; intros H;
        apply IH in H; destruct H as (Hle & Hall & Hsel).
      * split; [eapply le_trans; [exact Hle | now apply ltb_true_le]|].
        split.
        -- intros b' nb' [E|Hin]; [|eauto].
           injection E as <- <-. now rewrite Hcand.
        -- right. destruct Hsel as [[-> ->]|(nb' & Hin & Hc & Hlt')].
           ++ exists nb. split; [now left|]. now rewrite Hcand.
           ++ exists nb'. split; [now right|]. split; [assumption|].
              eapply ltb_le_trans; [exact Hlt' | now apply ltb_true_le].
      * split; [assumption|]. split.
        -- intros b' nb' [E|Hin]; [|eauto].
           injection E as <- <-. rewrite Hcand.
           eapply le_trans; [exact Hle | now apply ltb_false_le].
        -- destruct Hsel as [?|(nb' & Hin & Hc & Hlt')]; [now left|].
           right. exists nb'. auto.
    + intros H. apply IH in H. destruct H as (Hle & Hall & Hsel).
      split; [assumption|]. split.
      * intros b' nb' [E|Hin]; [|eauto].
        injection E as <- <-.
        rewrite (candidate_absent destination nb v Hv Hcv). apply le_Inf.
      * destruct Hsel as [?|(nb' & Hin & Hc & Hlt')]; [now left|].
        right. exists nb'. auto.
Qed.

Lemma cheapest_total (destination : addr) (neighbors : table) :
  (forall b nb, In (b, nb) neighbors ->
     direct nb <> None /\ costs nb <> None) ->
  (forall b nb d v c, In (b, nb) neighbors ->
     direct nb = Some d -> costs nb = Some v ->
     get destination v = Some c -> addable d c = true) ->
  forall best, exists best', cheapest destination neighbors best = Ok best'.
Proof.
  induction neighbors as [|[b nb] rest IH]; intros Hall Hsum best; simpl.
  - eauto.
  - destruct (Hall b nb (or_introl eq_refl)) as [Hd Hv].
    destruct (costs nb) as [v|] eqn:Ev; [|congruence].
    destruct (direct nb) as [d|] eqn:Ed; [|congruence]. simpl.
    assert (Hrest : forall b' nb', In (b', nb') rest ->
              direct nb' <> None /\ costs nb' <> None)
      by (intros; apply (Hall b' nb'); now right).
    assert (Hsumrest : forall b' nb' d' v' c', In (b', nb') rest ->
              direct nb' = Some d' -> costs nb' = Some v' ->
              get destination v' = Some c' -> addable d' c' = true)
      by (intros b' nb' d' v' c' Hin; apply (Hsum b' nb'); now right).
    destruct (get destination v) as [c|] eqn:Ec; [|now apply IH].
    rewrite (number_add_addable d c
               (Hsum b nb d v c (or_introl eq_refl) Ed Ev Ec)). simpl.
    destruct (ltb _ _); now apply IH.
Qed.

(** ** Tables that differ in costs and routes only *)

Lemma same_link_refl (n : node) : same_link n n.
Proof. repeat split. Qed.

Lemma same_link_trans (n1 n2 n3 : node) :
  same_link n1 n2 -> same_link n2 n3 -> same_link n1 n3.
Proof.
  unfold same_link. intros (?&?&?&?&?) (?&?&?&?&?).
  repeat split; congruence.
Qed.

Lemma same_links_refl (nodes : table) : same_links nodes nodes.
Proof.
  induction nodes; constructor; auto using same_link_refl.
Qed.

Lemma same_links_trans (s1 s2 s3 : table) :
  same_links s1 s2 -> same_links s2 s3 -> same_links s1 s3.
Proof.
  intros H. revert s3. induction H as [|x y l l' [Hk Hl] _ IH];
    intros s3 H3; inversion H3 as [|? z ? l'' [Hk' Hl'] Hrest]; subst.
  - constructor.
  - constructor; [|apply IH; exact Hrest].
    split; [congruence | eapply same_link_trans; eassumption].
Qed.

Lemma same_links_update (a : addr) (c : number) (r : addr) (nodes : table) :
  same_links nodes
    (update a (fun n => set_route r (set_cost c n)) nodes).
Proof.
  induction nodes as [|[k n] rest IH]; simpl; [constructor|].
  destruct (String.eqb k a).
  - constructor; [|apply same_links_refl]. repeat split.
  - constructor; [|assumption]. split; [reflexivity | apply same_link_refl].
Qed.

Lemma same_links_keys (s s' : table) : same_links s s' -> keys s = keys s'.
Proof.
  induction 1 as [|x y l l' [Hk _] _ IH]; simpl; [reflexivity|].
  now rewrite Hk, IH.
Qed.

Lemma same_links_get (s s' : table) (a : addr) :
  same_links s s' ->
  match get a s, get a s' with
  | Some n, Some n' => same_link n n'
  | None, None => True
  | _, _ => False
  end.
Proof.
  induction 1 as [|[k n] [k' n'] l l' [Hk Hl] _ IH]; simpl; [exact I|].
  simpl in Hk, Hl. subst k'. now destruct (String.eqb k a).
Qed.

Lemma same_links_get_Some (s s' : table) (a : addr) (n : node) :
  same_links s s' -> get a s = Some n ->
  exists n', get a s' = Some n' /\ same_link n n'.
Proof.
  intros H Hn. pose proof (same_links_get s s' a H) as Hg.
  rewrite Hn in Hg. destruct (get a s') as [n'|]; [eauto | contradiction].
Qed.

Lemma same_links_get_None (s s' : table) (a : addr) :
  same_links s s' -> get a s = None -> get a s' = None.
Proof.
  intros H Hn. pose proof (same_links_get s s' a H) as Hg.
  rewrite Hn in Hg. now destruct (get a s').
Qed.

Lemma same_links_sym (s s' : table) : same_links s s' -> same_links s' s.
Proof.
  induction 1 as [|x y l l' [Hk (?&?&?&?&?)] _ IH]; constructor; auto.
  repeat split; congruence.
Qed.

Lemma same_links_cheapest (s s' : table) (destination : addr) :
  same_links s s' ->
  forall best,
    cheapest destination (get_neighbors s) best =
    cheapest destination (get_neighbors s') best.
Proof.
  unfold get_neighbors.
  induction 1 as [|[k n] [k' n'] l l' [Hk (Hn & Hd & Hv & _)] _ IH];
    intros best; simpl; [reflexivity|].
  simpl in *. subst k'. rewrite <- Hn.
  destruct (is_neighbor n); [|apply IH].
  simpl. rewrite <- Hv, <- Hd.
  destruct (costs n) as [v|]; simpl; [|reflexivity].
  destruct (get destination v) as [c|]; [|apply IH].
  destruct (direct n) as [d|]; simpl; [|reflexivity].
  destruct (number_add d c) as [dist|]; simpl; [|reflexivity].
  destruct (ltb dist (fst best)); apply IH.
Qed.

Lemma same_links_In_neighbors (s s' : table) (a : addr) (n' : node) :
  same_links s s' -> In (a, n') (get_neighbors s') ->
  exists n, In (a, n) (get_neighbors s) /\ same_link n n'.
Proof.
  unfold get_neighbors.
  induction 1 as [|[k n] [k' m] l l' [Hk Hl] _ IH]; simpl; [tauto|].
  simpl in Hk, Hl. subst k'. destruct Hl as (Hn & Hrest).
  rewrite <- Hn. destruct (is_neighbor n) eqn:E; simpl.
  - intros [Heq|Hin].
    + injection Heq as <- <-. exists n. split; [now left|].
      split; [congruence | exact Hrest].
    + destruct (IH Hin) as (n0 & Hin0 & Hl0). exists n0. auto.
  - intros Hin. destruct (IH Hin) as (n0 & Hin0 & Hl0). exists n0. auto.
Qed.

Lemma same_links_complete (s s' : table) :
  same_links s s' -> neighbors_complete s -> neighbors_complete s'.
Proof.
  intros H Hc a n' Hin.
  destruct (same_links_In_neighbors s s' a n' H Hin)
    as (n & Hin0 & (_ & Hd & Hv & _)).
  rewrite <- Hd, <- Hv. eapply Hc. eassumption.
Qed.

(** ** The outer loop *)

Lemma keys_get_Some {V : Type} (k : addr) (d : dict V) :
  In k (keys d) -> exists v, get k d = Some v.
Proof.
  intros Hin. destruct (get k d) as [v|] eqn:E; [eauto|].
  apply get_None_keys in E. contradiction.
Qed.

Lemma set_cost_route_id (n : node) :
  set_route (route n) (set_cost (cost n) n) = n.
Proof. now destruct n. Qed.

Lemma estimate_loop_same_links (todo : list addr) :
  forall nodes nodes',
    estimate_loop todo nodes = Ok nodes' -> same_links nodes nodes'.
Proof.
  induction todo as [|d rest IH]; intros nodes nodes'; simpl.
  - intros [= ->]. apply same_links_refl.
  - destruct (String.eqb d me); [apply IH|].
    destruct (cheapest d (get_neighbors nodes) (Inf, "")) as [best|];
      simpl; [|discriminate].
    intros H. apply IH in H.
    eapply same_links_trans; [apply same_links_update | exact H].
Qed.

Lemma estimate_loop_settles (todo : list addr) :
  forall nodes0 nodes nodes',
    same_links nodes0 nodes ->
    estimate_loop todo nodes = Ok nodes' ->
    forall a, a <> me -> In a todo \/ settled nodes0 a nodes ->
      settled nodes0 a nodes'.
Proof.
  induction todo as [|d rest IH]; intros nodes0 nodes nodes' Hsame; simpl.
  - intros [= ->] a _ [[]|H]. exact H.
  - destruct (String.eqb_spec d me) as [->|Hd].
    + intros Hloop a Ha [[E|Hin]|Hs].
      * congruence.
      * eapply IH; eauto.
      * eapply IH; eauto.
    + rewrite <- (same_links_cheapest nodes0 nodes d Hsame).
      destruct (cheapest d (get_neighbors nodes0) (Inf, "")) as [best|]
        eqn:Hbest; simpl; [|discriminate].
      intros Hloop a Ha Hcase.
      eapply IH; [| exact Hloop | exact Ha |].
      * eapply same_links_trans; [exact Hsame | apply same_links_update].
      * destruct (String.eqb_spec d a) as [->|Hne].
        -- right. intros n. rewrite get_update_same.
           destruct (get a nodes) as [n0|]; simpl; [|discriminate].
           intros [= <-]. simpl. now destruct best.
        -- destruct Hcase as [[E|Hin]|Hs]; [congruence | now left |].
           right. intros n. rewrite get_update_other by assumption.
           apply Hs.
Qed.


Lemma estimate_loop_fixed (todo : list addr) (nodes0 nodes : table) :
  same_links nodes0 nodes ->
  (forall a, In a todo -> a <> me ->
     exists n, get a nodes = Some n /\
       cheapest a (get_neighbors nodes0) (Inf, "") = Ok (cost n, route n)) ->
  estimate_loop todo nodes = Ok nodes.
Proof.
  intros Hsame. induction todo as [|d rest IH]; intros Hall; simpl.
  - reflexivity.
  - assert (Hrest : estimate_loop rest nodes = Ok nodes)
      by (apply IH; intros; apply Hall; simpl; tauto).
    destruct (String.eqb_spec d me) as [->|Hd]; [exact Hrest|].
    destruct (Hall d (or_introl eq_refl) Hd) as (n & Hn & Hbest).
    rewrite <- (same_links_cheapest nodes0 nodes d Hsame), Hbest. simpl.
    rewrite update_id; [exact Hrest|].
    intros v. rewrite Hn. intros [= <-]. apply set_cost_route_id.
Qed.

Lemma same_links_sums_defined (s s' : table) :
  same_links s s' -> sums_defined s -> sums_defined s'.
Proof.
  intros H Hs b nb' d v D c Hin Hd Hv Hc.
  destruct (same_links_In_neighbors s s' b nb' H Hin)
    as (nb & Hin0 & (_ & Hd0 & Hv0 & _)).
  apply (Hs b nb d v D c Hin0); congruence.
Qed.

Lemma estimate_loop_total (todo : list addr) :
  forall nodes, neighbors_complete nodes -> sums_defined nodes ->
    exists nodes', estimate_loop todo nodes = Ok nodes'.
Proof.
  induction todo as [|d rest IH]; intros nodes Hc Hs; simpl.
  - eauto.
  - destruct (String.eqb d me); [now apply IH|].
    destruct (cheapest_total d (get_neighbors nodes) Hc
                (fun b nb d0 v c Hin Hd Hv Hg => Hs b nb d0 v d c Hin Hd Hv Hg)
                (Inf, ""))
      as (best & ->). simpl.
    apply IH.
    + eapply same_links_complete; [|exact Hc]. apply same_links_update.
    + eapply same_links_sums_defined; [|exact Hs]. apply same_links_update.
Qed.

Lemma estimate_costs_same_links (nodes nodes' : table) :
  estimate_costs nodes = Ok nodes' -> same_links nodes nodes'.
Proof. apply estimate_loop_same_links. Qed.

Lemma estimate_costs_total (nodes : table) :
  neighbors_complete nodes -> sums_defined nodes ->
  exists nodes', estimate_costs nodes = Ok nodes'.
Proof. apply estimate_loop_total. Qed.

(** After a pass every entry but this node's holds the result of the scan
    of the neighbors for its address. *)
Lemma estimate_costs_settled (nodes nodes' : table) (a : addr) (n' : node) :
  estimate_costs nodes = Ok nodes' -> a <> me -> get a nodes' = Some n' ->
  cheapest a (get_neighbors nodes) (Inf, "") = Ok (cost n', route n').
Proof.
  intros H Ha Hn'.
  refine (estimate_loop_settles (keys nodes) nodes nodes nodes'
            (same_links_refl nodes) H a Ha _ n' Hn').
  left. rewrite (same_links_keys _ _ (estimate_costs_same_links _ _ H)).
  eapply get_Some_keys. eassumption.
Qed.


(** ** C1: one pass of the relaxation *)


(** ** C8: a second pass changes nothing *)

(** C8. Two consecutive runs of [estimate_costs] give what one run gives:
    the second run returns the table of the first unchanged (and when the
    first raises there is no second). *)
Theorem C8_estimate_costs_idempotent (nodes : table) :
  (nodes' <- estimate_costs nodes ;; estimate_costs nodes') =
  estimate_costs nodes.
Proof.
  destruct (estimate_costs nodes) as [nodes'|e] eqn:Hrun; simpl;
    [|reflexivity].
  pose proof (estimate_costs_same_links nodes nodes' Hrun) as Hsame.
  unfold estimate_costs.
  apply (estimate_loop_fixed (keys nodes') nodes nodes' Hsame).
  intros a Hin Ha. destruct (keys_get_Some a nodes' Hin) as (n' & Hn').
  exists n'. split; [exact Hn'|].
  now apply (estimate_costs_settled nodes nodes' a n').
Qed.

(** ** C2: the vectors of a broadcast *)

Lemma get_set (k k' : addr) (v : number) (d : vector) :
  get k' (set k v d) = if String.eqb k k' then Some v else get k' d.
Proof.
  destruct (String.eqb_spec k k') as [->|Hne].
  - apply get_set_same.
  - now apply get_set_other.
Qed.

Lemma poison_fold_get (N : addr) (nodes : table) (D : addr) :
  forall (todo acc : vector),
    get D
      (fold_left
         (fun poisoned_costs dest =>
            let dest_addr := fst dest in
            if negb (String.eqb dest_addr me || String.eqb dest_addr N)
            then
              if String.eqb (route (fst (nodes_getitem dest_addr nodes))) N
              then set dest_addr Inf poisoned_costs
              else poisoned_costs
            else poisoned_costs)
         todo acc) =
    if routed_via nodes N D && contains D todo then Some Inf else get D acc.
Proof.
  induction todo as [|[k c] rest IH]; intros acc.
  - simpl. unfold contains. simpl. now rewrite andb_false_r.
  - cbn [fold_left]. rewrite IH. cbn [fst].
    unfold contains. simpl get.
    destruct (String.eqb_spec k D) as [->|Hne].
    + fold (routed_via nodes N D). unfold routed_via.
      destruct (negb (String.eqb D me || String.eqb D N)); simpl.
      * destruct (String.eqb (route (fst (nodes_getitem D nodes))) N);
          simpl.
        -- rewrite get_set_same. now destruct (get D rest).
        -- reflexivity.
      * reflexivity.
    + fold (contains D rest).
      destruct (routed_via nodes N D && contains D rest); [reflexivity|].
      destruct (negb (String.eqb k me || String.eqb k N)); [|reflexivity].
      destruct (String.eqb (route (fst (nodes_getitem k nodes))) N);
        [|reflexivity].
      now apply get_set_other.
Qed.

Lemma get_costs_of_table (nodes : table) (D : addr) :
  get D (map (fun kv => (fst kv, cost (snd kv))) nodes) =
  option_map cost (get D nodes).
Proof.
  induction nodes as [|[k n] rest IH]; simpl; [reflexivity|].
  now destruct (String.eqb k D).
Qed.

(** The vector for neighbor [N], destination by destination. *)
Lemma poison_get (N : addr) (nodes : table) (D : addr) :
  get D (poison N nodes (map (fun kv => (fst kv, cost (snd kv))) nodes)) =
  match get D nodes with
  | Some n =>
      Some (if negb (String.eqb D me || String.eqb D N) &&
               String.eqb (route n) N
            then Inf else cost n)
  | None => None
  end.
Proof.
  unfold poison. rewrite poison_fold_get, get_costs_of_table.
  unfold contains. rewrite get_costs_of_table.
  unfold routed_via, nodes_getitem.
  destruct (get D nodes) as [n|]; cbn [option_map fst].
  - rewrite andb_true_r. now destruct (_ && _).
  - now rewrite andb_false_r.
Qed.

Lemma broadcast_loop_spec (nodes : table) (costs : vector) :
  forall neighbors,
    (forall b nb, In (b, nb) neighbors -> direct nb <> None) ->
    exists sent,
      broadcast_loop neighbors nodes costs = Ok sent /\
      map fst sent = keys neighbors /\
      forall N p, In (N, p) sent ->
        payload_costs p = poison N nodes costs /\
        exists nb, In (N, nb) neighbors /\
                   direct nb = Some (payload_neighbor_direct p).
Proof.
  induction neighbors as [|[b nb] rest IH]; intros Hall; simpl.
  - exists []. simpl. tauto.
  - destruct (direct nb) as [d|] eqn:Hd;
      [|exfalso; now apply (Hall b nb (or_introl eq_refl))].
    destruct IH as (sent & -> & Hkeys & Hsent);
      [intros; apply (Hall b0 nb0); now right|].
    simpl. eexists. split; [reflexivity|]. simpl.
    split; [now rewrite Hkeys|].
    intros N p [E|Hin].
    + injection E as <- <-. simpl. split; [reflexivity|].
      exists nb. auto.
    + destruct (Hsent N p Hin) as (Hp & nb' & Hin' & Hd').
      split; [exact Hp|]. exists nb'. auto.
Qed.

(** C2. [broadcast_costs] sends one datagram to each neighbor [N], in the
    order of the table.  Its vector has +infinity for every destination
    that is neither this node nor [N] and whose ['route'] is [N], the
    current ['cost'] for every other destination of the table and nothing
    else; the ['direct'] of [N] goes with it as it is. *)
Theorem C2_broadcast_poison_reverse (nodes : table) :
  neighbors_complete nodes ->
  exists sent,
    broadcast_costs nodes = Ok sent /\
    map fst sent = keys (get_neighbors nodes) /\
    forall N p, In (N, p) sent ->
      (exists nb, In (N, nb) (get_neighbors nodes) /\
                  direct nb = Some (payload_neighbor_direct p)) /\
      (forall D, get D nodes = None -> get D (payload_costs p) = None) /\
      (forall D n, get D nodes = Some n ->
         (D <> me -> D <> N -> route n = N ->
            get D (payload_costs p) = Some Inf) /\
         (D = me \/ D = N \/ route n <> N ->
            get D (payload_costs p) = Some (cost n))).
Proof.
  intros Hc. unfold broadcast_costs.
  destruct (broadcast_loop_spec nodes
              (map (fun kv => (fst kv, cost (snd kv))) nodes)
              (get_neighbors nodes))
    as (sent & Hrun & Hkeys & Hsent).
  { intros b nb Hin. now apply (Hc b nb). }
  exists sent. split; [exact Hrun|]. split; [exact Hkeys|].
  intros N p Hin. destruct (Hsent N p Hin) as (Hp & Hnb).
  split; [exact Hnb|]. rewrite Hp. split.
  - intros D HD. now rewrite poison_get, HD.
  - intros D n HD. rewrite poison_get, HD. split.
    + intros H1 H2 ->.
      destruct (String.eqb_spec D me); [contradiction|].
      destruct (String.eqb_spec D N); [contradiction|].
      simpl. now rewrite String.eqb_refl.
    + intros [->|[->|Hr]].
      * now rewrite String.eqb_refl.
      * rewrite String.eqb_refl, orb_true_r. reflexivity.
      * destruct (String.eqb_spec (route n) N); [contradiction|].
        now rewrite andb_false_r.
Qed.

(** ** Well-formed tables *)

Lemma node_ok_default (a : addr) : node_ok a default_node.
Proof.
  unfold node_ok, default_node; simpl.
  split; [intros [E|E]; [discriminate | congruence]|].
  split; [discriminate | discriminate].
Qed.

Lemma same_link_node_ok (a : addr) (n n' : node) :
  same_link n n' -> node_ok a n -> node_ok a n'.
Proof.
  intros (Hn & Hd & Hv & Hs & Hm) H. unfold node_ok in *.
  now rewrite <- Hn, <- Hd, <- Hv, <- Hs, <- Hm.
Qed.

Lemma same_links_In (s s' : table) (a : addr) (n' : node) :
  same_links s s' -> In (a, n') s' ->
  exists n, In (a, n) s /\ same_link n n'.
Proof.
  induction 1 as [|[k n] [k' m] l l' [Hk Hl] _ IH]; simpl; [tauto|].
  simpl in Hk, Hl. subst k'. intros [E|Hin].
  - injection E as <- <-. exists n. auto.
  - destruct (IH Hin) as (n0 & Hin0 & Hl0). exists n0. auto.
Qed.

Lemma same_links_table_ok (s s' : table) :
  same_links s s' -> table_ok s -> table_ok s'.
Proof.
  intros Hsame [Hnd Hall]. split.
  - now rewrite <- (same_links_keys s s' Hsame).
  - intros a n' Hin.
    destruct (same_links_In s s' a n' Hsame Hin) as (n & Hin0 & Hl).
    eapply same_link_node_ok; eauto.
Qed.

Lemma In_get_neighbors (nodes : table) (a : addr) (n : node) :
  In (a, n) (get_neighbors nodes) <->
  In (a, n) nodes /\ is_neighbor n = true.
Proof. unfold get_neighbors. now rewrite filter_In. Qed.

Lemma table_ok_complete (nodes : table) :
  table_ok nodes -> neighbors_complete nodes.
Proof.
  intros [_ Hall] a n Hin. apply In_get_neighbors in Hin.
  destruct Hin as [Hin Hn].
  destruct (Hall a n Hin) as (H & _). destruct H as (_ & ? & ? & _); auto.
Qed.

Lemma table_ok_update (a : addr) (f : node -> node) (nodes : table)
    (n : node) :
  table_ok nodes -> get a nodes = Some n -> node_ok a (f n) ->
  table_ok (update a f nodes).
Proof.
  intros [Hnd Hall] Hn Hf. split.
  - now rewrite keys_update.
  - intros k v Hin. apply In_update in Hin.
    destruct Hin as [Hin|(v0 & -> & Hin & ->)]; [auto|].
    assert (v0 = n) as ->; [|exact Hf].
    apply (In_get a nodes v0 Hnd) in Hin. congruence.
Qed.

Lemma table_ok_app_default (a : addr) (nodes : table) :
  table_ok nodes -> get a nodes = None ->
  table_ok (nodes ++ [(a, default_node)]).
Proof.
  intros [Hnd Hall] Hn. split.
  - unfold keys. rewrite map_app. simpl.
    apply NoDup_app; [exact Hnd | repeat constructor; simpl; tauto|].
    intros x Hx [E|[]]. subst x. now apply get_None_keys in Hn.
  - intros k v Hin. apply in_app_iff in Hin.
    destruct Hin as [Hin|[E|[]]]; [auto|].
    injection E as <- <-. apply node_ok_default.
Qed.

Lemma routes_consistent_app_default (a : addr) (nodes : table) :
  routes_consistent nodes ->
  routes_consistent (nodes ++ [(a, default_node)]).
Proof.
  intros H k v Hin Hk. apply in_app_iff in Hin.
  destruct Hin as [Hin|[E|[]]]; [exact (H k v Hin Hk)|].
  injection E as <- <-. simpl. tauto.
Qed.

(** A pass over a well-formed table leaves it well formed, with
    consistent routes. *)
Lemma estimate_costs_routes (nodes nodes' : table) :
  table_ok nodes -> estimate_costs nodes = Ok nodes' ->
  table_ok nodes' /\ routes_consistent nodes'.
Proof.
  intros Hok Hrun.
  pose proof (estimate_costs_same_links nodes nodes' Hrun) as Hsame.
  pose proof (same_links_table_ok nodes nodes' Hsame Hok) as Hok'.
  split; [exact Hok'|].
  intros a n' Hin Ha.
  apply (In_get a nodes' n' (proj1 Hok')) in Hin.
  pose proof (estimate_costs_settled nodes nodes' a n' Hrun Ha Hin) as Hs.
  apply cheapest_spec in Hs. destruct Hs as (_ & _ & Hsel).
  destruct Hsel as [[-> ->]|(nb & Hnb & _ & Hlt)]; [tauto|].
  apply In_get_neighbors in Hnb. destruct Hnb as [Hnb Hisn].
  destruct (proj2 Hok _ _ Hnb) as (H & _).
  destruct (H (or_introl Hisn)) as (Hne & _).
  apply ltb_true_finite in Hlt. tauto.
Qed.

(** ** get_node *)

Lemma get_node_known (a : addr) (nodes : table) (n : node) :
  get a nodes = Some n -> get_node a nodes = (n, false, nodes).
Proof.
  intros H. unfold get_node, in_network, contains, nodes_getitem.
  now rewrite H.
Qed.

Lemma get_node_unknown (a : addr) (nodes : table) :
  get a nodes = None ->
  get_node a nodes =
  (default_node, true, nodes ++ [(a, default_node)]).
Proof.
  intros H. unfold get_node, in_network, contains, nodes_getitem.
  now rewrite H.
Qed.

(** ** The branches of the link commands *)

Lemma linkchange_cases (a : addr) (d : number) (nodes : table) r nodes' :
  linkchange a d nodes = Ok (r, nodes') ->
  (get a nodes = None /\ r = NodeNotInNetwork /\
   nodes' = nodes ++ [(a, default_node)]) \/
  (exists n, get a nodes = Some n /\
     ((is_neighbor n = false /\ r = NotNeighborCantChange /\
       nodes' = nodes) \/
      (is_neighbor n = true /\ ltb d (Fin 1) = true /\
       r = MinimumLinkCost /\ nodes' = nodes) \/
      (is_neighbor n = true /\ ltb d (Fin 1) = false /\
       saved n <> None /\ r = LinkCurrentlyDown /\ nodes' = nodes) \/
      (is_neighbor n = true /\ ltb d (Fin 1) = false /\ saved n = None /\
       r = Done /\
       estimate_costs (update a (set_direct (Some d)) nodes) = Ok nodes'))).
Proof.
  unfold linkchange. destruct (get a nodes) as [n|] eqn:Hn.
  - rewrite (get_node_known a nodes n Hn). simpl.
    intros H. right. exists n. split; [reflexivity|].
    destruct (is_neighbor n); simpl in H; [|injection H as <- <-; auto].
    destruct (ltb d (Fin 1)); [injection H as <- <-; auto 6|].
    destruct (saved n) as [sv|].
    + injection H as <- <-. right. right. left.
      repeat split; congruence.
    + destruct (estimate_costs _) as [t|]; simpl in H; [|discriminate].
      injection H as <- <-. auto 10.
  - rewrite (get_node_unknown a nodes Hn). simpl.
    intros [= <- <-]. auto.
Qed.

Lemma linkdown_cases (a : addr) (nodes : table) r nodes' :
  linkdown a nodes = Ok (r, nodes') ->
  (get a nodes = None /\ r = NodeNotInNetwork /\
   nodes' = nodes ++ [(a, default_node)]) \/
  (exists n, get a nodes = Some n /\
     ((is_neighbor n = false /\ r = NotNeighborCantTakeDown /\
       nodes' = nodes) \/
      (exists d monitor,
         is_neighbor n = true /\ direct n = Some d /\
         silence_monitor n = Some monitor /\ r = Done /\
         estimate_costs
           (update a
              (fun n =>
                 set_silence_monitor (Some (cancel monitor))
                   (set_is_neighbor false
                      (set_direct (Some Inf) (set_saved (Some d) n))))
              nodes) = Ok nodes'))).
Proof.
  unfold linkdown. destruct (get a nodes) as [n|] eqn:Hn.
  - rewrite (get_node_known a nodes n Hn). simpl.
    intros H. right. exists n. split; [reflexivity|].
    destruct (is_neighbor n); simpl in H; [|injection H as <- <-; auto].
    destruct (direct n) as [d|]; simpl in H; [|discriminate].
    destruct (silence_monitor n) as [m|]; simpl in H; [|discriminate].
    destruct (estimate_costs _) as [t|] eqn:He; simpl in H; [|discriminate].
    injection H as <- <-. right. exists d, m. auto 6.
  - rewrite (get_node_unknown a nodes Hn). simpl.
    intros [= <- <-]. auto.
Qed.

Lemma linkup_cases (a : addr) (nodes : table) r nodes' :
  linkup a nodes = Ok (r, nodes') ->
  (get a nodes = None /\ r = NodeNotInNetwork /\
   nodes' = nodes ++ [(a, default_node)]) \/
  (exists n, get a nodes = Some n /\
     ((saved n = None /\ r = WasntPreviousNeighbor /\ nodes' = nodes) \/
      (exists d,
         saved n = Some d /\ r = Done /\
         estimate_costs
           (update a
              (fun n =>
                 set_is_neighbor true
                   (set_saved None (set_direct (Some d) n)))
              nodes) = Ok nodes'))).
Proof.
  unfold linkup. destruct (get a nodes) as [n|] eqn:Hn.
  - rewrite (get_node_known a nodes n Hn). simpl.
    intros H. right. exists n. split; [reflexivity|].
    destruct (saved n) as [d|]; [|injection H as <- <-; auto].
    destruct (estimate_costs _) as [t|] eqn:He; simpl in H; [|discriminate].
    injection H as <- <-. right. exists d. auto.
  - rewrite (get_node_unknown a nodes Hn). simpl.
    intros [= <- <-]. auto.
Qed.

(** ** The branches of update_costs *)

Lemma set_absent {V : Type} (k : addr) (v : V) (d : dict V) :
  get k d = None -> set k v d = d ++ [(k, v)].
Proof.
  induction d as [|[k' v'] d IH]; simpl; [reflexivity|].
  destruct (String.eqb k' k); [discriminate|].
  intros H. now rewrite IH.
Qed.

Lemma contains_false {V : Type} (k : addr) (d : dict V) :
  contains k d = false -> get k d = None.
Proof. unfold contains. now destruct (get k d). Qed.

(** [create_missing] appends default nodes and nothing else. *)
Lemma create_missing_app (costs : vector) (nodes : table) :
  exists extra,
    create_missing costs nodes = nodes ++ extra /\
    Forall (fun kv => snd kv = default_node) extra.
Proof.
  unfold create_missing. generalize (keys costs) as ks.
  intros ks. revert nodes.
  induction ks as [|k ks IH]; intros nodes; simpl.
  - exists []. now rewrite app_nil_r.
  - destruct (contains k nodes) eqn:Hc.
    + apply IH.
    + apply contains_false in Hc. rename Hc into Hk.
      rewrite (set_absent k default_node nodes Hk).
      destruct (IH (nodes ++ [(k, default_node)])) as (extra & -> & Hall).
      exists ((k, default_node) :: extra).
      rewrite <- app_assoc. simpl. split; [reflexivity|].
      constructor; auto.
Qed.

Lemma create_missing_ok (costs : vector) (nodes : table) :
  table_ok nodes -> table_ok (create_missing costs nodes).
Proof.
  unfold create_missing. generalize (keys costs) as ks.
  intros ks. revert nodes.
  induction ks as [|k ks IH]; intros nodes Hok; simpl; [exact Hok|].
  destruct (contains k nodes) eqn:Hc.
  - now apply IH.
  - apply contains_false in Hc. rename Hc into Hk.
    apply IH. rewrite (set_absent k default_node nodes Hk).
    now apply table_ok_app_default.
Qed.

Lemma get_app_present {V : Type} (k : addr) (d extra : dict V) (v : V) :
  get k d = Some v -> get k (d ++ extra) = Some v.
Proof.
  induction d as [|[k' v'] d IH]; simpl; [discriminate|].
  destruct (String.eqb k' k); auto.
Qed.

Lemma create_missing_get (costs : vector) (nodes : table) (a : addr) n :
  get a nodes = Some n -> get a (create_missing costs nodes) = Some n.
Proof.
  intros H. destruct (create_missing_app costs nodes) as (extra & -> & _).
  now apply get_app_present.
Qed.

Lemma create_node_neighbor (now : Z) (c : number) (a : addr)
    (costs : vector) (d : number) :
  create_node now c true (Some d) (Some costs) a =
  Ok (new_neighbor now c a costs d).
Proof. reflexivity. Qed.

Lemma reset_started (now : Z) (m : ResettableTimer) :
  reset now m =
  Ok (mk_ResettableTimer (interval m) (func m) (args m)
        (mk_Timer (interval m) (func m) (args m) (Some now) false)).
Proof. reflexivity. Qed.

Lemma node_ok_new_neighbor (now : Z) (c : number) (a : addr)
    (costs : vector) (d : number) :
  a <> "" -> node_ok a (new_neighbor now c a costs d).
Proof.
  intros Ha. unfold node_ok, new_neighbor; simpl.
  split; [intros _; repeat split; congruence|].
  split; [|reflexivity].
  intros m [= <-]. repeat split.
Qed.

(** In a table with distinct addresses the node of a new neighbor is
    built with the cost of a fresh default node, whatever the cost of the
    deleted node was. *)
Lemma make_neighbor_fresh (now : Z) (a : addr) (costs : vector)
    (d : number) (nodes : table) :
  NoDup (keys nodes) ->
  make_neighbor now a costs d nodes =
  Ok (set a (new_neighbor now Inf a costs d)
        (del a nodes ++ [(a, default_node)])).
Proof.
  intros Hnd. unfold make_neighbor, nodes_getitem.
  now rewrite (get_del_same a nodes Hnd), create_node_neighbor.
Qed.

Lemma table_ok_del (a : addr) (nodes : table) :
  table_ok nodes -> table_ok (del a nodes).
Proof.
  intros [Hnd Hall]. split; [now apply NoDup_keys_del|].
  intros k v Hin. apply Hall. eapply In_del. eassumption.
Qed.

Lemma table_ok_set (a : addr) (n : node) (nodes : table) :
  table_ok nodes -> node_ok a n -> table_ok (set a n nodes).
Proof.
  intros [Hnd Hall] Hn. split; [now apply NoDup_keys_set|].
  intros k v Hin. apply In_set in Hin.
  destruct Hin as [Hin|[-> ->]]; auto.
Qed.

Lemma make_neighbor_ok (now : Z) (a : addr) (costs : vector) (d : number)
    (nodes nodes' : table) :
  a <> "" -> table_ok nodes ->
  make_neighbor now a costs d nodes = Ok nodes' -> table_ok nodes'.
Proof.
  intros Ha Hok. rewrite (make_neighbor_fresh now a costs d nodes (proj1 Hok)).
  intros [= <-]. apply table_ok_set; [|now apply node_ok_new_neighbor].
  apply table_ok_app_default; [now apply table_ok_del|].
  apply get_del_same, Hok.
Qed.

Lemma refresh_neighbor_cases (now : Z) (a : addr) (costs : vector)
    (nodes nodes' : table) (n : node) :
  get a nodes = Some n ->
  refresh_neighbor now a costs nodes = Ok nodes' ->
  exists m,
    silence_monitor n = Some m /\
    nodes' =
      update a
        (fun n =>
           set_silence_monitor
             (Some (mk_ResettableTimer (interval m) (func m) (args m)
                      (mk_Timer (interval m) (func m) (args m) (Some now)
                         false)))
             (set_costs (Some costs) n))
        nodes.
Proof.
  intros Hn. unfold refresh_neighbor, nodes_getitem. rewrite Hn. simpl.
  destruct (silence_monitor n) as [m|]; simpl; [|discriminate].
  intros [= <-]. exists m. auto.
Qed.

Lemma refresh_neighbor_ok (now : Z) (a : addr) (costs : vector)
    (nodes nodes' : table) (n : node) :
  table_ok nodes -> get a nodes = Some n -> is_neighbor n = true ->
  refresh_neighbor now a costs nodes = Ok nodes' -> table_ok nodes'.
Proof.
  intros Hok Hn Hisn Hrun.
  destruct (refresh_neighbor_cases now a costs nodes nodes' n Hn Hrun)
    as (m & Hm & ->).
  apply (table_ok_update a _ nodes n Hok Hn).
  pose proof (proj2 Hok a n (get_In a nodes n Hn)) as (H1 & H2 & H3).
  destruct (H1 (or_introl Hisn)) as (Ha & Hd & Hv & _).
  destruct (H2 m Hm) as (Hi & Hf & Harg & _).
  unfold node_ok; simpl. split; [intros _; repeat split; congruence|].
  split; [|exact H3].
  intros m' [= <-]. unfold monitor_ok; simpl. repeat split; assumption.
Qed.

Lemma nodes_getitem_cases (a : addr) (nodes : table) :
  (exists n, get a nodes = Some n /\ nodes_getitem a nodes = (n, nodes)) \/
  (get a nodes = None /\
   nodes_getitem a nodes = (default_node, nodes ++ [(a, default_node)])).
Proof.
  unfold nodes_getitem. destruct (get a nodes) as [n|]; eauto.
Qed.

Lemma get_app_default (a : addr) (nodes : table) :
  get a nodes = None ->
  get a (nodes ++ [(a, default_node)]) = Some default_node.
Proof.
  intros H. rewrite (get_app_absent a a default_node nodes H).
  now rewrite String.eqb_refl.
Qed.

(** The three stages of [update_costs]. *)
Lemma update_costs_cases (now : Z) (a : addr) (costs : vector) (d : number)
    (nodes nodes' : table) :
  update_costs now a costs d nodes = Ok nodes' ->
  exists nodes1 sender nodes2,
    nodes_getitem a (create_missing costs nodes) = (sender, nodes1) /\
    get a nodes1 = Some sender /\
    (if is_neighbor sender
     then refresh_neighbor now a costs nodes1 = Ok nodes2
     else make_neighbor now a costs d nodes1 = Ok nodes2) /\
    estimate_costs nodes2 = Ok nodes'.
Proof.
  unfold update_costs.
  destruct (nodes_getitem_cases a (create_missing costs nodes))
    as [(n & Hn & ->)|(Hn & ->)].
  - destruct (is_neighbor n) eqn:Hisn; simpl;
      [destruct (refresh_neighbor _ _ _ _) as [t|] eqn:Hb
      |destruct (make_neighbor _ _ _ _ _) as [t|] eqn:Hb];
      simpl; try discriminate; intros Hrun;
      exists (create_missing costs nodes), n, t; rewrite Hisn; auto.
  - simpl.
    destruct (make_neighbor _ _ _ _ _) as [t|] eqn:Hb;
      simpl; try discriminate; intros Hrun.
    exists (create_missing costs nodes ++ [(a, default_node)]),
      default_node, t.
    simpl. split; [reflexivity|]. split; [now apply get_app_default|].
    auto.
Qed.

Lemma update_costs_ok (now : Z) (a : addr) (costs : vector) (d : number)
    (nodes nodes' : table) :
  a <> "" -> table_ok nodes ->
  update_costs now a costs d nodes = Ok nodes' ->
  table_ok nodes' /\ routes_consistent nodes'.
Proof.
  intros Ha Hok Hrun.
  destruct (update_costs_cases now a costs d nodes nodes' Hrun)
    as (nodes1 & sender & nodes2 & Hget & Hsender & Hbranch & Hest).
  assert (Hok1 : table_ok nodes1).
  { pose proof (create_missing_ok costs nodes Hok) as Hc.
    destruct (nodes_getitem_cases a (create_missing costs nodes))
      as [(n & Hn & E)|(Hn & E)]; rewrite E in Hget;
      injection Hget as <- <-; [exact Hc|].
    now apply table_ok_app_default. }
  apply (estimate_costs_routes nodes2 nodes'); [|exact Hest].
  destruct (is_neighbor sender) eqn:Hisn.
  - eapply refresh_neighbor_ok; eauto.
  - eapply make_neighbor_ok; eauto.
Qed.

(** ** Every operation keeps the table well formed *)

Lemma monitor_ok_cancel (a : addr) (m : ResettableTimer) :
  monitor_ok a m -> monitor_ok a (cancel m).
Proof. unfold monitor_ok, cancel; simpl. tauto. Qed.

Lemma routes_consistent_update (a : addr) (f : node -> node)
    (nodes : table) :
  (forall n, cost (f n) = cost n /\ route (f n) = route n) ->
  routes_consistent nodes -> routes_consistent (update a f nodes).
Proof.
  intros Hf H k v Hin Hk. apply In_update in Hin.
  destruct Hin as [Hin|(v0 & -> & Hin & ->)]; [exact (H k v Hin Hk)|].
  destruct (Hf v0) as [-> ->]. exact (H a v0 Hin Hk).
Qed.

Lemma linkchange_ok (a : addr) (d : number) (nodes : table) r nodes' :
  table_ok nodes -> routes_consistent nodes ->
  linkchange a d nodes = Ok (r, nodes') ->
  table_ok nodes' /\ routes_consistent nodes'.
Proof.
  intros Hok Hr Hrun. apply linkchange_cases in Hrun.
  destruct Hrun as [(Hn & _ & ->)|(n & Hn & Hcase)].
  - split; [now apply table_ok_app_default
           |now apply routes_consistent_app_default].
  - destruct Hcase as [(_ & _ & ->)|[(_ & _ & _ & ->)|
      [(_ & _ & _ & _ & ->)|(Hisn & _ & Hs & _ & Hest)]]]; auto.
    eapply estimate_costs_routes; [|exact Hest].
    apply (table_ok_update a _ nodes n Hok Hn).
    pose proof (proj2 Hok a n (get_In a nodes n Hn)) as (H1 & H2 & H3).
    destruct (H1 (or_introl Hisn)) as (Ha & Hd & Hv & Hm).
    unfold node_ok; simpl.
    split; [intros _; repeat split; congruence|]. auto.
Qed.

Lemma linkdown_ok (a : addr) (nodes : table) r nodes' :
  table_ok nodes -> routes_consistent nodes ->
  linkdown a nodes = Ok (r, nodes') ->
  table_ok nodes' /\ routes_consistent nodes'.
Proof.
  intros Hok Hr Hrun. apply linkdown_cases in Hrun.
  destruct Hrun as [(Hn & _ & ->)|(n & Hn & Hcase)].
  - split; [now apply table_ok_app_default
           |now apply routes_consistent_app_default].
  - destruct Hcase as [(_ & _ & ->)|(d & m & Hisn & Hd & Hm & _ & Hest)];
      auto.
    eapply estimate_costs_routes; [|exact Hest].
    apply (table_ok_update a _ nodes n Hok Hn).
    pose proof (proj2 Hok a n (get_In a nodes n Hn)) as (H1 & H2 & H3).
    destruct (H1 (or_introl Hisn)) as (Ha & _ & Hv & _).
    unfold node_ok; simpl.
    split; [intros _; repeat split; congruence|].
    split; [|discriminate].
    intros m' [= <-]. apply monitor_ok_cancel. auto.
Qed.

Lemma linkup_ok (a : addr) (nodes : table) r nodes' :
  table_ok nodes -> routes_consistent nodes ->
  linkup a nodes = Ok (r, nodes') ->
  table_ok nodes' /\ routes_consistent nodes'.
Proof.
  intros Hok Hr Hrun. apply linkup_cases in Hrun.
  destruct Hrun as [(Hn & _ & ->)|(n & Hn & Hcase)].
  - split; [now apply table_ok_app_default
           |now apply routes_consistent_app_default].
  - destruct Hcase as [(_ & _ & ->)|(d & Hs & _ & Hest)]; auto.
    eapply estimate_costs_routes; [|exact Hest].
    apply (table_ok_update a _ nodes n Hok Hn).
    pose proof (proj2 Hok a n (get_In a nodes n Hn)) as (H1 & H2 & H3).
    assert (Hsaved : saved n <> None) by congruence.
    destruct (H1 (or_intror Hsaved)) as (Ha & _ & Hv & Hm).
    unfold node_ok; simpl.
    split; [intros _; repeat split; congruence|]. auto.
Qed.

Lemma silence_expired_ok (a : addr) (monitor : ResettableTimer)
    (nodes nodes' : table) :
  table_ok nodes -> routes_consistent nodes ->
  silence_expired a monitor nodes = Ok nodes' ->
  table_ok nodes' /\ routes_consistent nodes'.
Proof.
  intros Hok Hr. unfold silence_expired, run_callback.
  destruct (Timer_function (countdown monitor)).
  destruct (linkdown _ nodes) as [[r nodes1]|] eqn:Hdown; simpl;
    [|discriminate].
  intros [= <-].
  destruct (linkdown_ok _ nodes r nodes1 Hok Hr Hdown) as [Hok1 Hr1].
  split.
  - destruct (get a nodes1) as [n|] eqn:Hn;
      [|now rewrite update_absent].
    apply (table_ok_update a _ nodes1 n Hok1 Hn).
    pose proof (proj2 Hok1 a n (get_In a nodes1 n Hn)) as (H1 & H2 & H3).
    destruct (silence_monitor n) as [m|] eqn:Hm;
      [|unfold node_ok; rewrite Hm; auto].
    unfold node_ok; simpl. split; [|split; [|exact H3]].
    + intros H. destruct (H1 H) as (? & ? & ? & _).
      repeat split; congruence.
    + intros m' [= <-]. apply monitor_ok_cancel. auto.
  - apply routes_consistent_update; [|exact Hr1].
    intros n. now destruct (silence_monitor n).
Qed.

Lemma step_ok (nodes nodes' : table) :
  step nodes nodes' ->
  table_ok nodes -> routes_consistent nodes ->
  table_ok nodes' /\ routes_consistent nodes'.
Proof.
  intros Hstep Hok Hr.
  destruct Hstep as [now a costs d nodes' Ha Hrun
                    |sent Hrun
                    |a d r nodes' Ha Hrun
                    |a r nodes' Ha Hrun
                    |a r nodes' Ha Hrun
                    |now a n monitor nodes' Hn Hm Hdue Hrun].
  - eapply update_costs_ok; eauto.
  - auto.
  - eapply linkchange_ok; eauto.
  - eapply linkdown_ok; eauto.
  - eapply linkup_ok; eauto.
  - eapply silence_expired_ok; eauto.
Qed.

Lemma reachable_ok (nodes : table) :
  reachable nodes -> table_ok nodes /\ routes_consistent nodes.
Proof.
  induction 1 as [nodes Hnd Hall|nodes nodes' _ [Hok Hr] Hstep].
  - rewrite Forall_forall in Hall. split; [split; [exact Hnd|]|].
    + intros a n Hin. rewrite (Hall _ Hin : n = default_node).
      apply node_ok_default.
    + intros a n Hin _. rewrite (Hall _ Hin : n = default_node).
      simpl. tauto.
  - now apply (step_ok nodes nodes').
Qed.

(** ** C9: a next hop exactly where the cost is finite *)

(** C9. In every table reached from default entries by completed
    operations (an advertisement received, a broadcast, a link command,
    the expiry of a silence monitor), every entry other than this node's
    has a non-empty ['route'] if and only if its ['cost'] is finite. *)
Theorem C9_route_iff_finite_cost (nodes : table) (a : addr) (n : node) :
  reachable nodes -> In (a, n) nodes -> a <> me ->
  (route n <> "" <-> cost n <> Inf).
Proof.
  intros Hreach. destruct (reachable_ok nodes Hreach) as [_ Hr].
  apply Hr.
Qed.

(** ** Tables whose numbers fit a float *)

Lemma node_fits_make (n : node) :
  match direct n with Some d => fits d | None => true end = true ->
  match saved n with Some d => fits d | None => true end = true ->
  match costs n with Some v => vector_fits v | None => true end = true ->
  node_fits n = true.
Proof. unfold node_fits. now intros -> -> ->. Qed.

Lemma node_fits_parts (n : node) :
  node_fits n = true ->
  match direct n with Some d => fits d | None => true end = true /\
  match saved n with Some d => fits d | None => true end = true /\
  match costs n with Some v => vector_fits v | None => true end = true.
Proof.
  unfold node_fits. intros H.
  apply andb_true_iff in H. destruct H as [H H3].
  apply andb_true_iff in H. tauto.
Qed.

Lemma same_link_node_fits (n n' : node) :
  same_link n n' -> node_fits n = true -> node_fits n' = true.
Proof.
  intros (_ & Hd & Hv & Hs & _). unfold node_fits.
  now rewrite Hd, Hv, Hs.
Qed.

Lemma vector_fits_get (v : vector) (D : addr) (c : number) :
  vector_fits v = true -> get D v = Some c -> fits c = true.
Proof.
  intros Hv Hc. unfold vector_fits in Hv. rewrite forallb_forall in Hv.
  exact (Hv (D, c) (get_In D v c Hc)).
Qed.

Lemma numbers_fit_In (nodes : table) (a : addr) (n : node) :
  numbers_fit nodes = true -> In (a, n) nodes -> node_fits n = true.
Proof.
  intros H Hin. unfold numbers_fit in H. rewrite forallb_forall in H.
  exact (H (a, n) Hin).
Qed.

Lemma numbers_fit_intro (nodes : table) :
  (forall a n, In (a, n) nodes -> node_fits n = true) ->
  numbers_fit nodes = true.
Proof.
  intros H. unfold numbers_fit. apply forallb_forall.
  intros [a n] Hin. exact (H a n Hin).
Qed.

(** In a table whose numbers fit, no sum of the relaxation overflows. *)
Lemma numbers_fit_sums (nodes : table) :
  numbers_fit nodes = true -> sums_defined nodes.
Proof.
  intros H b nb d v D c Hin Hd Hv Hc.
  apply In_get_neighbors in Hin. destruct Hin as [Hin _].
  pose proof (node_fits_parts nb (numbers_fit_In nodes b nb H Hin))
    as (H1 & _ & H3).
  rewrite Hd in H1. rewrite Hv in H3.
  apply fits_addable; [exact H1 | eapply vector_fits_get; eassumption].
Qed.

Lemma numbers_fit_update (a : addr) (f : node -> node) (nodes : table)
    (n : node) :
  numbers_fit nodes = true -> get a nodes = Some n ->
  node_fits (f n) = true -> numbers_fit (update a f nodes) = true.
Proof.
  intros H Hn Hf. revert H Hn.
  induction nodes as [|[k0 v0] rest IH]; simpl; [discriminate|].
  intros H. apply andb_true_iff in H. destruct H as [H0 Hrest].
  destruct (String.eqb k0 a); simpl.
  - intros [= ->]. now rewrite Hf, Hrest.
  - intros Hn. now rewrite H0, IH.
Qed.

Lemma numbers_fit_app (nodes extra : table) :
  numbers_fit nodes = true -> numbers_fit extra = true ->
  numbers_fit (nodes ++ extra) = true.
Proof.
  intros H1 H2. unfold numbers_fit in *. rewrite forallb_app.
  now rewrite H1, H2.
Qed.

Lemma numbers_fit_create_missing (vec : vector) (nodes : table) :
  numbers_fit nodes = true -> numbers_fit (create_missing vec nodes) = true.
Proof.
  intros H. destruct (create_missing_app vec nodes) as (extra & -> & Hall).
  apply numbers_fit_app; [exact H|].
  apply numbers_fit_intro. intros a n Hin.
  rewrite Forall_forall in Hall. specialize (Hall _ Hin). simpl in Hall.
  now subst n.
Qed.

Lemma numbers_fit_del (a : addr) (nodes : table) :
  numbers_fit nodes = true -> numbers_fit (del a nodes) = true.
Proof.
  intros H. apply numbers_fit_intro. intros k v Hin.
  eapply numbers_fit_In; [exact H | eapply In_del; eassumption].
Qed.

Lemma numbers_fit_set (a : addr) (n : node) (nodes : table) :
  numbers_fit nodes = true -> node_fits n = true ->
  numbers_fit (set a n nodes) = true.
Proof.
  intros H Hn. apply numbers_fit_intro. intros k v Hin.
  apply In_set in Hin. destruct Hin as [Hin|[_ ->]]; [|exact Hn].
  eapply numbers_fit_In; eassumption.
Qed.

Lemma same_links_numbers_fit (s s' : table) :
  same_links s s' -> numbers_fit s = true -> numbers_fit s' = true.
Proof.
  intros Hsame H. apply numbers_fit_intro. intros a n' Hin.
  destruct (same_links_In s s' a n' Hsame Hin) as (n & Hin0 & Hl).
  eapply same_link_node_fits; [exact Hl|].
  eapply numbers_fit_In; eassumption.
Qed.

Lemma nodes_getitem_fits (a : addr) (nodes : table) :
  numbers_fit nodes = true ->
  numbers_fit (snd (nodes_getitem a nodes)) = true.
Proof.
  intros H. unfold nodes_getitem. destruct (get a nodes); simpl; [exact H|].
  now apply numbers_fit_app.
Qed.

Lemma node_fits_new_neighbor (now : Z) (c : number) (a : addr)
    (vec : vector) (d : number) :
  vector_fits vec = true -> fits d = true ->
  node_fits (new_neighbor now c a vec d) = true.
Proof. intros Hv Hd. now apply node_fits_make. Qed.

(** ** Commands that run to the end *)

(** A command that mutates the node at [a] and runs the relaxation returns,
    when the numbers fit, and the node keeps what the mutation gave it but
    ['cost'] and ['route']. *)
Lemma mutate_then_estimate (a : addr) (f : node -> node) (nodes : table)
    (n : node) :
  table_ok nodes -> numbers_fit nodes = true ->
  get a nodes = Some n -> node_ok a (f n) -> node_fits (f n) = true ->
  exists nodes' n',
    estimate_costs (update a f nodes) = Ok nodes' /\
    get a nodes' = Some n' /\ same_link (f n) n' /\ table_ok nodes' /\
    numbers_fit nodes' = true.
Proof.
  intros Hok Hfit Hn Hf Hffit.
  pose proof (table_ok_update a f nodes n Hok Hn Hf) as Hok1.
  pose proof (numbers_fit_update a f nodes n Hfit Hn Hffit) as Hfit1.
  destruct (estimate_costs_total _ (table_ok_complete _ Hok1)
              (numbers_fit_sums _ Hfit1))
    as (nodes' & Hrun).
  pose proof (estimate_costs_same_links _ _ Hrun) as Hsame.
  assert (Hget : get a (update a f nodes) = Some (f n))
    by (rewrite get_update_same, Hn; reflexivity).
  destruct (same_links_get_Some _ _ a (f n) Hsame Hget) as (n' & Hn' & Hl).
  exists nodes', n'.
  split; [exact Hrun|]. split; [exact Hn'|]. split; [exact Hl|].
  split; [apply (same_links_table_ok _ _ Hsame Hok1)|].
  apply (same_links_numbers_fit _ _ Hsame Hfit1).
Qed.



(** ** C10: an advertisement from a link taken down *)


(** ** C6: a command on an address the table does not have *)

(** C6 (amended). [linkup], [linkdown] and [linkchange] on an address with
    no entry answer that the node is not in the network and raise nothing;
    they keep every entry of the table as it is and where it is, and add a
    default node for the address at the end. *)
Theorem C6_unknown_node_gets_default_entry (a : addr) (d : number)
    (nodes : table) :
  get a nodes = None ->
  linkup a nodes = Ok (NodeNotInNetwork, nodes ++ [(a, default_node)]) /\
  linkdown a nodes = Ok (NodeNotInNetwork, nodes ++ [(a, default_node)]) /\
  linkchange a d nodes =
    Ok (NodeNotInNetwork, nodes ++ [(a, default_node)]).
Proof.
  intros Hn. unfold linkup, linkdown, linkchange.
  rewrite (get_node_unknown a nodes Hn). simpl. auto.
Qed.

(** ** A link taken down: [linkchange], and [linkdown] then [linkup] *)

(** In a well-formed table [linkchange] never answers that the link is
    currently down: a node with ['saved'] is not a neighbor, and the test
    on ['is_neighbor'] comes first. *)
Lemma linkchange_never_link_down (a : addr) (d : number) (nodes : table)
    (nodes' : table) :
  table_ok nodes -> linkchange a d nodes <> Ok (LinkCurrentlyDown, nodes').
Proof.
  intros Hok Hrun. apply linkchange_cases in Hrun.
  destruct Hrun as [(_ & E & _)|(n & Hn & Hcase)]; [discriminate|].
  destruct Hcase as [(_ & E & _)|[(_ & _ & E & _)|
    [(Hisn & _ & Hs & _)|(_ & _ & _ & E & _)]]]; try discriminate.
  pose proof (proj2 Hok a n (get_In a nodes n Hn)) as (_ & _ & K3). auto.
Qed.

Lemma node_fits_down (n : node) (d : number) (m : ResettableTimer) :
  node_fits n = true -> direct n = Some d ->
  node_fits
    (set_silence_monitor (Some (cancel m))
       (set_is_neighbor false (set_direct (Some Inf) (set_saved (Some d) n))))
  = true.
Proof.
  intros H Hd. destruct (node_fits_parts n H) as (F1 & _ & F3).
  rewrite Hd in F1. now apply node_fits_make.
Qed.

Lemma node_fits_up (n : node) (d : number) :
  node_fits n = true -> saved n = Some d ->
  node_fits (set_is_neighbor true (set_saved None (set_direct (Some d) n)))
  = true.
Proof.
  intros H Hd. destruct (node_fits_parts n H) as (_ & F2 & F3).
  rewrite Hd in F2. now apply node_fits_make.
Qed.

Lemma node_fits_change (n : node) (d : number) :
  node_fits n = true -> fits d = true ->
  node_fits (set_direct (Some d) n) = true.
Proof.
  intros H Hd. destruct (node_fits_parts n H) as (_ & F2 & F3).
  now apply node_fits_make.
Qed.

(** [linkdown] on a neighbor of a well-formed table whose numbers fit runs
    to the end. *)
Lemma linkdown_runs (a : addr) (nodes : table) (n : node) :
  table_ok nodes -> numbers_fit nodes = true ->
  get a nodes = Some n -> is_neighbor n = true ->
  exists nodes' n' d m,
    linkdown a nodes = Ok (Done, nodes') /\
    keys nodes' = keys nodes /\
    get a nodes' = Some n' /\
    direct n = Some d /\ silence_monitor n = Some m /\
    same_link
      (set_silence_monitor (Some (cancel m))
         (set_is_neighbor false
            (set_direct (Some Inf) (set_saved (Some d) n)))) n' /\
    table_ok nodes' /\ numbers_fit nodes' = true.
Proof.
  intros Hok Hfit Hn Hisn.
  pose proof (proj2 Hok a n (get_In a nodes n Hn)) as (K1 & K2 & K3).
  destruct (K1 (or_introl Hisn)) as (Ha & Hd & Hv & Hm).
  destruct (direct n) as [d|] eqn:Ed; [|congruence].
  destruct (silence_monitor n) as [m|] eqn:Em; [|congruence].
  destruct (mutate_then_estimate a
              (fun n =>
                 set_silence_monitor (Some (cancel m))
                   (set_is_neighbor false
                      (set_direct (Some Inf) (set_saved (Some d) n))))
              nodes n Hok Hfit Hn)
    as (nodes' & n' & Hrun & Hn' & Hl & Hok' & Hfit').
  { unfold node_ok; simpl. split; [intros _; repeat split; congruence|].
    split; [|discriminate].
    intros m' [= <-]. apply monitor_ok_cancel. auto. }
  { apply node_fits_down; [|exact Ed].
    eapply numbers_fit_In; [exact Hfit | eapply get_In; exact Hn]. }
  exists nodes', n', d, m.
  split.
  { unfold linkdown. rewrite (get_node_known a nodes n Hn). simpl.
    rewrite Hisn, Ed, Em. simpl. now rewrite Hrun. }
  split.
  { rewrite <- (same_links_keys _ _ (estimate_costs_same_links _ _ Hrun)).
    apply keys_update. }
  auto 8.
Qed.

(** [linkup] on a node with ['saved'] of a well-formed table whose numbers
    fit runs to the end. *)
Lemma linkup_runs (a : addr) (nodes : table) (n : node) (d : number) :
  table_ok nodes -> numbers_fit nodes = true ->
  get a nodes = Some n -> saved n = Some d ->
  exists nodes' n',
    linkup a nodes = Ok (Done, nodes') /\
    keys nodes' = keys nodes /\
    get a nodes' = Some n' /\
    same_link
      (set_is_neighbor true (set_saved None (set_direct (Some d) n))) n' /\
    table_ok nodes' /\ numbers_fit nodes' = true.
Proof.
  intros Hok Hfit Hn Hs.
  pose proof (proj2 Hok a n (get_In a nodes n Hn)) as (K1 & K2 & K3).
  assert (Hsaved : saved n <> None) by congruence.
  destruct (K1 (or_intror Hsaved)) as (Ha & _ & Hv & Hm).
  destruct (mutate_then_estimate a
              (fun n =>
                 set_is_neighbor true
                   (set_saved None (set_direct (Some d) n)))
              nodes n Hok Hfit Hn)
    as (nodes' & n' & Hrun & Hn' & Hl & Hok' & Hfit').
  { unfold node_ok; simpl. split; [intros _; repeat split; congruence|].
    auto. }
  { apply node_fits_up; [|exact Hs].
    eapply numbers_fit_In; [exact Hfit | eapply get_In; exact Hn]. }
  exists nodes', n'.
  split.
  { unfold linkup. rewrite (get_node_known a nodes n Hn). simpl.
    rewrite Hs. now rewrite Hrun. }
  split.
  { rewrite <- (same_links_keys _ _ (estimate_costs_same_links _ _ Hrun)).
    apply keys_update. }
  auto.
Qed.

(** [linkdown] then [linkup] on a neighbor, when the numbers of the table
    fit a float: both run to the end, the ['direct'] is the one of before,
    ['saved'] is gone, the node is a neighbor again, and its monitor is the
    old one, cancelled. *)
Lemma linkdown_linkup_restores (a : addr) (nodes : table) (n : node) :
  table_ok nodes -> numbers_fit nodes = true ->
  get a nodes = Some n -> is_neighbor n = true ->
  exists nodes1 nodes2 n2,
    linkdown a nodes = Ok (Done, nodes1) /\
    linkup a nodes1 = Ok (Done, nodes2) /\
    get a nodes2 = Some n2 /\
    direct n2 = direct n /\ saved n2 = None /\ is_neighbor n2 = true /\
    silence_monitor n2 = option_map cancel (silence_monitor n).
Proof.
  intros Hok Hfit Hn Hisn.
  destruct (linkdown_runs a nodes n Hok Hfit Hn Hisn)
    as (nodes1 & n1 & d & m & Hdown & _ & Hn1 & Hd & Hm &
        (H1 & H2 & H3 & H4 & H5) & Hok1 & Hfit1).
  simpl in *.
  destruct (linkup_runs a nodes1 n1 d Hok1 Hfit1 Hn1 (eq_sym H4))
    as (nodes2 & n2 & Hup & _ & Hn2 & (J1 & J2 & J3 & J4 & J5) & _).
  simpl in *.
  exists nodes1, nodes2, n2. split; [exact Hdown|]. split; [exact Hup|].
  rewrite Hm. simpl. repeat split; congruence.
Qed.

(** ** Further properties of estimate_costs *)

Lemma ltb_finite_Inf (c c0 : number) : ltb c c0 = true -> ltb c Inf = true.
Proof. destruct c; [reflexivity | discriminate]. Qed.

(** When the scan improves on the running cost, the neighbor it returns
    is the first of the list with the least candidate. *)
Lemma cheapest_first (destination : addr) (neighbors : table) :
  forall c0 r0 c r,
    cheapest destination neighbors (c0, r0) = Ok (c, r) ->
    ltb c c0 = true ->
    exists before nb after,
      neighbors = before ++ (r, nb) :: after /\
      candidate destination nb = c /\
      (forall b nb', In (b, nb') before ->
         ltb c (candidate destination nb') = true) /\
      (forall b nb', In (b, nb') after ->
         le c (candidate destination nb')).
Proof.
  induction neighbors as [|[b nb] rest IH]; intros c0 r0 c r; simpl.
  - intros [= -> ->] Hlt. destruct c; simpl in Hlt;
      [rewrite Z.ltb_irrefl in Hlt|]; discriminate.
  - destruct (costs nb) as [v|] eqn:Hv; simpl; [|discriminate].
    assert (Hskip : forall c1 r1,
              cheapest destination rest (c1, r1) = Ok (c, r) ->
              ltb c c1 = true -> le c1 (candidate destination nb) ->
              exists before nb0 after,
                (b, nb) :: rest = before ++ (r, nb0) :: after /\
                candidate destination nb0 = c /\
                (forall b' nb', In (b', nb') before ->
                   ltb c (candidate destination nb') = true) /\
                (forall b' nb', In (b', nb') after ->
                   le c (candidate destination nb'))).
    { intros c1 r1 Hrun Hlt Hle.
      destruct (IH c1 r1 c r Hrun Hlt)
        as (before & nb0 & after & -> & Hc & Hb & Ha).
      exists ((b, nb) :: before), nb0, after.
      split; [reflexivity|]. split; [exact Hc|]. split; [|exact Ha].
      intros b' nb' [E|Hin]; [|eauto].
      injection E as <- <-. eapply ltb_le_trans; eassumption. }
    destruct (get destination v) as [cv|] eqn:Hcv.
    + destruct (direct nb) as [d|] eqn:Hd; simpl; [|discriminate].
      pose proof (candidate_present destination nb v d cv Hv Hd Hcv) as Hcand.
      destruct (number_add d cv) as [dist|] eqn:Hsum; simpl; [|discriminate].
      apply number_add_Ok in Hsum. subst dist. rewrite <- Hcand.
      destruct (ltb (candidate destination nb) c0) eqn:Hlt0; intros Hrun Hlt.
      * destruct (ltb c (candidate destination nb)) eqn:Hlt1.
        -- apply (Hskip _ _ Hrun Hlt1). apply le_refl.
        -- apply cheapest_spec in Hrun.
           destruct Hrun as (_ & Hall & [[-> ->]|(nb' & _ & _ & Hbad)]);
             [|congruence].
           exists [], nb, rest. simpl. repeat split; auto; tauto.
      * apply (Hskip _ _ Hrun Hlt). now apply ltb_false_le.
    + intros Hrun Hlt. apply (Hskip _ _ Hrun Hlt).
      rewrite (candidate_absent destination nb v Hv Hcv). apply le_Inf.
Qed.

(** X1. The scan of lines 60-68 breaks ties by the order in which
    [get_neighbors()] yields the neighbors, whatever that order is: started
    from [(inf, '')] on any list of neighbors, when it returns a finite cost
    the next hop it returns is the first neighbor of the list whose
    candidate is that cost; every neighbor before it has a strictly greater
    candidate, and no neighbor after it has a smaller one. *)
Theorem X1_cheapest_first_in_scan_order (destination : addr)
    (neighbors : table) (c : number) (r : addr) :
  cheapest destination neighbors (Inf, "") = Ok (c, r) -> c <> Inf ->
  exists before nb after,
    neighbors = before ++ (r, nb) :: after /\
    candidate destination nb = c /\
    (forall b nb', In (b, nb') before ->
       ltb c (candidate destination nb') = true) /\
    (forall b nb', In (b, nb') after -> le c (candidate destination nb')).
Proof.
  intros Hrun Hfin.
  apply (cheapest_first destination neighbors Inf "" c r Hrun).
  destruct c; [reflexivity | congruence].
Qed.




(** X3. With no neighbor in the table the relaxation returns and leaves
    every destination other than this node unreachable: cost +infinity and
    no next hop. *)
Theorem X3_estimate_costs_without_neighbors (nodes : table) :
  get_neighbors nodes = [] ->
  exists nodes',
    estimate_costs nodes = Ok nodes' /\
    keys nodes' = keys nodes /\
    forall a n', get a nodes' = Some n' -> a <> me ->
      cost n' = Inf /\ route n' = "".
Proof.
  intros Hnone.
  assert (Hc : neighbors_complete nodes)
    by (intros a n Hin; rewrite Hnone in Hin; contradiction).
  assert (Hsums : sums_defined nodes)
    by (intros b nb d v D c Hin; rewrite Hnone in Hin; contradiction).
  destruct (estimate_costs_total nodes Hc Hsums) as (nodes' & Hrun).
  exists nodes'. split; [exact Hrun|].
  split; [symmetry; apply same_links_keys;
          now apply estimate_costs_same_links|].
  intros a n' Hn' Ha.
  pose proof (estimate_costs_settled nodes nodes' a n' Hrun Ha Hn') as Hs.
  rewrite Hnone in Hs. simpl in Hs. injection Hs as <- <-. auto.
Qed.

(** ** Further properties of update_costs *)

Lemma keys_get {V : Type} (k : addr) (d : dict V) :
  In k (keys d) <-> get k d <> None.
Proof.
  split.
  - intros Hin Hn. now apply get_None_keys in Hn.
  - intros Hn. destruct (get k d) as [v|] eqn:E; [|congruence].
    eapply get_Some_keys. eassumption.
Qed.

Lemma get_app {V : Type} (k : addr) (d d' : dict V) :
  get k (d ++ d') =
  match get k d with
  | Some v => Some v
  | None => get k d'
  end.
Proof.
  induction d as [|[k' v'] d IH]; simpl; [reflexivity|].
  now destruct (String.eqb k' k).
Qed.

Lemma keys_app_default (a : addr) (nodes : table) :
  keys (nodes ++ [(a, default_node)]) = keys nodes ++ [a].
Proof. unfold keys. now rewrite map_app. Qed.

Lemma create_missing_keys (vec : vector) (nodes : table) (D : addr) :
  In D (keys vec) \/ In D (keys nodes) ->
  In D (keys (create_missing vec nodes)).
Proof.
  unfold create_missing. generalize (keys vec) as ks.
  intros ks. revert nodes.
  induction ks as [|k ks IH]; intros nodes; simpl; [tauto|].
  intros H. apply IH.
  destruct (contains k nodes) eqn:Hc.
  - destruct H as [[<-|H]|H]; auto.
    right. apply keys_get. unfold contains in Hc.
    destruct (get k nodes); [discriminate | discriminate].
  - apply contains_false in Hc.
    rewrite (set_absent k default_node nodes Hc), keys_app_default.
    destruct H as [[<-|H]|H]; auto; right; apply in_or_app; simpl; auto.
Qed.

Lemma nodes_getitem_keys (a : addr) (nodes : table) (k : addr) :
  In k (keys nodes) -> In k (keys (snd (nodes_getitem a nodes))).
Proof.
  unfold nodes_getitem. destruct (get a nodes); simpl; [auto|].
  rewrite keys_app_default. intros H. apply in_or_app. auto.
Qed.

Lemma nodes_getitem_get (a : addr) (nodes : table) :
  get a (snd (nodes_getitem a nodes)) = Some (fst (nodes_getitem a nodes)).
Proof.
  unfold nodes_getitem. destruct (get a nodes) eqn:E; simpl; [exact E|].
  now apply get_app_default.
Qed.

(** Lines 86-92 keep every address of the table. *)
Lemma make_neighbor_keys (now : Z) (a : addr) (vec : vector) (d : number)
    (nodes nodes' : table) (k : addr) :
  make_neighbor now a vec d nodes = Ok nodes' ->
  In k (keys nodes) -> In k (keys nodes').
Proof.
  unfold make_neighbor.
  destruct (nodes_getitem a (del a nodes)) as [fresh nodes1] eqn:Hg.
  rewrite create_node_neighbor. simpl. intros [= <-] Hin.
  apply keys_get. destruct (String.eqb_spec a k) as [->|Hne].
  - rewrite get_set_same. discriminate.
  - rewrite get_set_other by assumption.
    apply keys_get. change nodes1 with (snd (fresh, nodes1)).
    rewrite <- Hg. apply nodes_getitem_keys.
    apply keys_get. rewrite get_del_other by assumption.
    now apply keys_get.
Qed.

Lemma refresh_neighbor_keys (now : Z) (a : addr) (vec : vector)
    (nodes nodes' : table) :
  refresh_neighbor now a vec nodes = Ok nodes' ->
  get a nodes <> None -> keys nodes' = keys nodes.
Proof.
  unfold refresh_neighbor, nodes_getitem.
  destruct (get a nodes) as [n|]; [|congruence]. simpl.
  destruct (silence_monitor n); simpl; [|discriminate].
  intros [= <-] _. apply keys_update.
Qed.

(** [update_costs] keeps every address of the table and has an entry for
    every destination of the vector. *)
Lemma update_costs_keys (now : Z) (a : addr) (vec : vector) (d : number)
    (nodes nodes' : table) (k : addr) :
  update_costs now a vec d nodes = Ok nodes' ->
  In k (keys vec) \/ In k (keys nodes) \/ k = a -> In k (keys nodes').
Proof.
  intros Hrun Hk.
  destruct (update_costs_cases now a vec d nodes nodes' Hrun)
    as (nodes1 & sender & nodes2 & Hget & Hsender & Hbranch & Hest).
  rewrite <- (same_links_keys _ _ (estimate_costs_same_links _ _ Hest)).
  assert (H1 : In k (keys nodes1)).
  { change nodes1 with (snd (sender, nodes1)). rewrite <- Hget.
    destruct Hk as [Hk|[Hk|E]]; [| |subst k].
    - apply nodes_getitem_keys, create_missing_keys. auto.
    - apply nodes_getitem_keys, create_missing_keys. auto.
    - eapply get_Some_keys. apply nodes_getitem_get. }
  destruct (is_neighbor sender).
  - rewrite (refresh_neighbor_keys now a vec nodes1 nodes2 Hbranch);
      [exact H1 | congruence].
  - eapply make_neighbor_keys; eassumption.
Qed.

(** The table that [update_costs] hands to the relaxation: the sender is
    a neighbor in it, with the vector received and a ['direct']. *)
Lemma update_costs_sender (now : Z) (a : addr) (vec : vector) (d : number)
    (nodes nodes' : table) :
  table_ok nodes ->
  update_costs now a vec d nodes = Ok nodes' ->
  exists nodes2 na dr,
    estimate_costs nodes2 = Ok nodes' /\
    get a nodes2 = Some na /\ is_neighbor na = true /\
    costs na = Some vec /\ direct na = Some dr.
Proof.
  intros Hok Hrun.
  destruct (update_costs_cases now a vec d nodes nodes' Hrun)
    as (nodes1 & sender & nodes2 & Hget & Hsender & Hbranch & Hest).
  assert (Hok1 : table_ok nodes1).
  { pose proof (create_missing_ok vec nodes Hok) as Hc.
    destruct (nodes_getitem_cases a (create_missing vec nodes))
      as [(n & Hn & E)|(Hn & E)]; rewrite E in Hget;
      injection Hget as <- <-; [exact Hc|].
    now apply table_ok_app_default. }
  destruct (is_neighbor sender) eqn:Hisn.
  - destruct (refresh_neighbor_cases now a vec nodes1 nodes2 sender
                Hsender Hbranch) as (m & Hm & ->).
    pose proof (proj2 Hok1 a sender (get_In a nodes1 sender Hsender))
      as (K1 & _).
    destruct (K1 (or_introl Hisn)) as (_ & Hd & _).
    destruct (direct sender) as [dr|] eqn:Ed; [|congruence].
    eexists. eexists. exists dr. split; [exact Hest|].
    rewrite get_update_same, Hsender. simpl.
    split; [reflexivity|]. simpl. auto.
  - rewrite (make_neighbor_fresh now a vec d nodes1 (proj1 Hok1)) in Hbranch.
    injection Hbranch as <-.
    eexists. eexists. exists d. split; [exact Hest|].
    rewrite get_set_same. split; [reflexivity|]. simpl. auto.
Qed.

Lemma update_costs_of_neighbor (now : Z) (a : addr) (vec : vector)
    (d : number) (nodes : table) (n : node) :
  get a nodes = Some n -> is_neighbor n = true ->
  update_costs now a vec d nodes =
  (nodes2 <- refresh_neighbor now a vec (create_missing vec nodes) ;;
   estimate_costs nodes2).
Proof.
  intros Hn Hisn.
  pose proof (create_missing_get vec nodes a n Hn) as Hn1.
  unfold update_costs.
  destruct (nodes_getitem_cases a (create_missing vec nodes))
    as [(n0 & Hn0 & ->)|(Hn0 & _)]; [|congruence].
  assert (n0 = n) as -> by congruence. now rewrite Hisn.
Qed.

(** X4. An advertisement from an address that is already a neighbor does
    not use the direct cost the sender claims: the table [update_costs]
    leaves is the same for every claimed value, and the ['direct'] of the
    sender stays what it was. *)
Theorem X4_update_costs_neighbor_keeps_direct (now : Z) (a : addr)
    (vec : vector) (d d' : number) (nodes : table) (n : node) :
  get a nodes = Some n -> is_neighbor n = true ->
  update_costs now a vec d nodes = update_costs now a vec d' nodes /\
  forall nodes' n',
    update_costs now a vec d nodes = Ok nodes' ->
    get a nodes' = Some n' -> direct n' = direct n.
Proof.
  intros Hn Hisn.
  pose proof (create_missing_get vec nodes a n Hn) as Hn1.
  split.
  - now rewrite !(update_costs_of_neighbor _ _ _ _ _ n Hn Hisn).
  - intros nodes' n' Hrun Hn'.
    destruct (update_costs_cases now a vec d nodes nodes' Hrun)
      as (nodes1 & sender & nodes2 & Hget & Hsender & Hbranch & Hest).
    unfold nodes_getitem in Hget. rewrite Hn1 in Hget.
    injection Hget as <- <-. rewrite Hisn in Hbranch.
    destruct (refresh_neighbor_cases now a vec _ nodes2 n Hn1 Hbranch)
      as (m & Hm & ->).
    pose proof (estimate_costs_same_links _ _ Hest) as Hsame.
    pose proof (same_links_get _ _ a Hsame) as Hg.
    rewrite get_update_same, Hn1, Hn' in Hg. simpl in Hg.
    destruct Hg as (_ & Hd & _). simpl in Hd. congruence.
Qed.

(** X5. After an advertisement is merged, every destination of its vector
    other than this node has an entry whose cost is at most the ['direct']
    of the sender plus the advertised cost. *)
Theorem X5_update_costs_offers_advertised_route (now : Z) (a : addr)
    (vec : vector) (d : number) (nodes nodes' : table) (D : addr)
    (c : number) :
  table_ok nodes ->
  update_costs now a vec d nodes = Ok nodes' ->
  get D vec = Some c -> D <> me ->
  exists nD na dr,
    get D nodes' = Some nD /\ get a nodes' = Some na /\
    is_neighbor na = true /\ direct na = Some dr /\
    le (cost nD) (add dr c).
Proof.
  intros Hok Hrun Hc HD.
  destruct (update_costs_sender now a vec d nodes nodes' Hok Hrun)
    as (nodes2 & na2 & dr & Hest & Hna2 & Hisn & Hv & Hd).
  pose proof (estimate_costs_same_links _ _ Hest) as Hsame.
  destruct (same_links_get_Some _ _ a na2 Hsame Hna2)
    as (na & Hna & (Hl1 & Hl2 & _)).
  assert (HDin : In D (keys nodes')).
  { apply (update_costs_keys now a vec d nodes nodes' D Hrun).
    left. eapply get_Some_keys. eassumption. }
  destruct (keys_get_Some D nodes' HDin) as (nD & HnD).
  exists nD, na, dr. split; [exact HnD|]. split; [exact Hna|].
  split; [congruence|]. split; [congruence|].
  pose proof (estimate_costs_settled nodes2 nodes' D nD Hest HD HnD) as Hs.
  apply cheapest_spec in Hs. destruct Hs as (_ & Hall & _).
  rewrite <- (candidate_present D na2 vec dr c Hv Hd Hc).
  apply (Hall a na2). apply In_get_neighbors.
  split; [now apply get_In | exact Hisn].
Qed.

(** ** No operation removes an address *)

Lemma linkchange_keys (a : addr) (d : number) (nodes : table) r nodes'
    (k : addr) :
  linkchange a d nodes = Ok (r, nodes') ->
  In k (keys nodes) -> In k (keys nodes').
Proof.
  intros Hrun Hk. apply linkchange_cases in Hrun.
  destruct Hrun as [(_ & _ & ->)|(n & Hn & Hcase)].
  - rewrite keys_app_default. apply in_or_app. auto.
  - destruct Hcase as [(_ & _ & ->)|[(_ & _ & _ & ->)|
      [(_ & _ & _ & _ & ->)|(_ & _ & _ & _ & Hest)]]]; auto.
    rewrite <- (same_links_keys _ _ (estimate_costs_same_links _ _ Hest)).
    now rewrite keys_update.
Qed.

Lemma linkdown_keys (a : addr) (nodes : table) r nodes' (k : addr) :
  linkdown a nodes = Ok (r, nodes') ->
  In k (keys nodes) -> In k (keys nodes').
Proof.
  intros Hrun Hk. apply linkdown_cases in Hrun.
  destruct Hrun as [(_ & _ & ->)|(n & Hn & Hcase)].
  - rewrite keys_app_default. apply in_or_app. auto.
  - destruct Hcase as [(_ & _ & ->)|(d & m & _ & _ & _ & _ & Hest)]; auto.
    rewrite <- (same_links_keys _ _ (estimate_costs_same_links _ _ Hest)).
    now rewrite keys_update.
Qed.

Lemma linkup_keys (a : addr) (nodes : table) r nodes' (k : addr) :
  linkup a nodes = Ok (r, nodes') ->
  In k (keys nodes) -> In k (keys nodes').
Proof.
  intros Hrun Hk. apply linkup_cases in Hrun.
  destruct Hrun as [(_ & _ & ->)|(n & Hn & Hcase)].
  - rewrite keys_app_default. apply in_or_app. auto.
  - destruct Hcase as [(_ & _ & ->)|(d & _ & _ & Hest)]; auto.
    rewrite <- (same_links_keys _ _ (estimate_costs_same_links _ _ Hest)).
    now rewrite keys_update.
Qed.

Lemma step_keys (nodes nodes' : table) (k : addr) :
  step nodes nodes' -> In k (keys nodes) -> In k (keys nodes').
Proof.
  intros Hstep Hk.
  destruct Hstep as [now a vec d nodes' Ha Hrun
                    |sent Hrun
                    |a d r nodes' Ha Hrun
                    |a r nodes' Ha Hrun
                    |a r nodes' Ha Hrun
                    |now a n monitor nodes' Hn Hm Hdue Hrun].
  - apply (update_costs_keys now a vec d nodes nodes' k Hrun). auto.
  - exact Hk.
  - eapply linkchange_keys; eassumption.
  - eapply linkdown_keys; eassumption.
  - eapply linkup_keys; eassumption.
  - unfold silence_expired, run_callback in Hrun.
    destruct (Timer_function (countdown monitor)).
    destruct (linkdown _ nodes) as [[r nodes1]|] eqn:Hdown; simpl in Hrun;
      [|discriminate].
    injection Hrun as <-. rewrite keys_update.
    eapply linkdown_keys; eassumption.
Qed.

(** X6. No completed operation removes an address from the table: an
    advertisement merged (which deletes and re-creates the entry of a new
    neighbor), a broadcast, a link command and the expiry of a monitor all
    leave an entry for every address that had one. *)
Theorem X6_step_keeps_addresses (nodes nodes' : table) (k : addr) :
  step nodes nodes' -> In k (keys nodes) -> In k (keys nodes').
Proof. apply step_keys. Qed.

(** ** A rule for the properties of the nodes of a run *)

Section NodeInvariant.
Variable P : list addr -> addr -> node -> Prop.

Hypothesis P_same_link : forall ks a n n',
  same_link n n' -> P ks a n -> P ks a n'.
Hypothesis P_more_keys : forall ks ks' a n,
  incl ks ks' -> P ks a n -> P ks' a n.
Hypothesis P_default : forall ks a, P ks a default_node.
Hypothesis P_new_neighbor : forall ks now a vec d,
  a <> "" -> incl (keys vec) ks -> P ks a (new_neighbor now Inf a vec d).
Hypothesis P_refresh : forall ks now a vec n m,
  node_ok a n -> P ks a n -> is_neighbor n = true ->
  silence_monitor n = Some m -> incl (keys vec) ks ->
  P ks a
    (set_silence_monitor
       (Some (mk_ResettableTimer (interval m) (func m) (args m)
                (mk_Timer (interval m) (func m) (args m) (Some now) false)))
       (set_costs (Some vec) n)).
Hypothesis P_linkchange : forall ks a n d,
  node_ok a n -> P ks a n -> is_neighbor n = true ->
  P ks a (set_direct (Some d) n).
Hypothesis P_linkdown : forall ks a n d m,
  node_ok a n -> P ks a n -> is_neighbor n = true ->
  direct n = Some d -> silence_monitor n = Some m ->
  P ks a
    (set_silence_monitor (Some (cancel m))
       (set_is_neighbor false (set_direct (Some Inf) (set_saved (Some d) n)))).
Hypothesis P_linkup : forall ks a n d,
  node_ok a n -> P ks a n -> saved n = Some d ->
  P ks a (set_is_neighbor true (set_saved None (set_direct (Some d) n))).
Hypothesis P_cancel : forall ks a n m,
  P ks a n -> silence_monitor n = Some m ->
  P ks a (set_silence_monitor (Some (cancel m)) n).

Lemma table_all_app_default (a : addr) (nodes : table) :
  table_all P nodes -> table_all P (nodes ++ [(a, default_node)]).
Proof.
  intros H k v Hin. apply in_app_iff in Hin.
  destruct Hin as [Hin|[E|[]]].
  - apply (P_more_keys (keys nodes)); [|now apply H].
    rewrite keys_app_default. now apply incl_appl, incl_refl.
  - injection E as <- <-. apply P_default.
Qed.

Lemma table_all_estimate (nodes nodes' : table) :
  table_all P nodes -> estimate_costs nodes = Ok nodes' ->
  table_all P nodes'.
Proof.
  intros H Hrun k v' Hin.
  pose proof (estimate_costs_same_links _ _ Hrun) as Hsame.
  destruct (same_links_In _ _ k v' Hsame Hin) as (v & Hv & Hl).
  rewrite <- (same_links_keys _ _ Hsame).
  eapply P_same_link; [exact Hl | now apply H].
Qed.

Lemma table_all_update (a : addr) (f : node -> node) (nodes : table) :
  table_all P nodes ->
  (forall v, In (a, v) nodes -> P (keys nodes) a (f v)) ->
  table_all P (update a f nodes).
Proof.
  intros H Hf k v' Hin. rewrite keys_update. apply In_update in Hin.
  destruct Hin as [Hin|(v & -> & Hin & ->)]; [now apply H | now apply Hf].
Qed.

Lemma table_all_create_missing (vec : vector) (nodes : table) :
  table_all P nodes -> table_all P (create_missing vec nodes).
Proof.
  intros H k v Hin.
  destruct (create_missing_app vec nodes) as (extra & E & Hall).
  rewrite E in *. apply in_app_iff in Hin. destruct Hin as [Hin|Hin].
  - apply (P_more_keys (keys nodes)); [|now apply H].
    unfold keys. rewrite map_app. now apply incl_appl, incl_refl.
  - rewrite Forall_forall in Hall. specialize (Hall _ Hin). simpl in Hall.
    subst v. apply P_default.
Qed.

Lemma table_all_linkchange (a : addr) (d : number) (nodes : table) r
    nodes' :
  table_ok nodes -> table_all P nodes ->
  linkchange a d nodes = Ok (r, nodes') -> table_all P nodes'.
Proof.
  intros Hok H Hrun. apply linkchange_cases in Hrun.
  destruct Hrun as [(_ & _ & ->)|(n & Hn & Hcase)].
  - now apply table_all_app_default.
  - destruct Hcase as [(_ & _ & ->)|[(_ & _ & _ & ->)|
      [(_ & _ & _ & _ & ->)|(Hisn & _ & _ & _ & Hest)]]]; auto.
    eapply table_all_estimate; [|exact Hest].
    apply table_all_update; [exact H|].
    intros v Hv. assert (v = n) as ->
      by (apply (In_get a nodes v (proj1 Hok)) in Hv; congruence).
    apply P_linkchange; [now apply (proj2 Hok) | now apply H | exact Hisn].
Qed.

Lemma table_all_linkdown (a : addr) (nodes : table) r nodes' :
  table_ok nodes -> table_all P nodes ->
  linkdown a nodes = Ok (r, nodes') -> table_all P nodes'.
Proof.
  intros Hok H Hrun. apply linkdown_cases in Hrun.
  destruct Hrun as [(_ & _ & ->)|(n & Hn & Hcase)].
  - now apply table_all_app_default.
  - destruct Hcase as [(_ & _ & ->)|(d & m & Hisn & Hd & Hm & _ & Hest)];
      auto.
    eapply table_all_estimate; [|exact Hest].
    apply table_all_update; [exact H|].
    intros v Hv. assert (v = n) as ->
      by (apply (In_get a nodes v (proj1 Hok)) in Hv; congruence).
    apply P_linkdown; auto. now apply (proj2 Hok).
Qed.

Lemma table_all_linkup (a : addr) (nodes : table) r nodes' :
  table_ok nodes -> table_all P nodes ->
  linkup a nodes = Ok (r, nodes') -> table_all P nodes'.
Proof.
  intros Hok H Hrun. apply linkup_cases in Hrun.
  destruct Hrun as [(_ & _ & ->)|(n & Hn & Hcase)].
  - now apply table_all_app_default.
  - destruct Hcase as [(_ & _ & ->)|(d & Hs & _ & Hest)]; auto.
    eapply table_all_estimate; [|exact Hest].
    apply table_all_update; [exact H|].
    intros v Hv. assert (v = n) as ->
      by (apply (In_get a nodes v (proj1 Hok)) in Hv; congruence).
    apply P_linkup; auto. now apply (proj2 Hok).
Qed.

Lemma table_all_update_costs (now : Z) (a : addr) (vec : vector)
    (d : number) (nodes nodes' : table) :
  a <> "" -> table_ok nodes -> table_all P nodes ->
  update_costs now a vec d nodes = Ok nodes' -> table_all P nodes'.
Proof.
  intros Ha Hok H Hrun.
  destruct (update_costs_cases now a vec d nodes nodes' Hrun)
    as (nodes1 & sender & nodes2 & Hget & Hsender & Hbranch & Hest).
  pose proof (create_missing_ok vec nodes Hok) as Hokc.
  pose proof (table_all_create_missing vec nodes H) as Hc.
  assert (H1 : table_ok nodes1 /\ table_all P nodes1 /\
               incl (keys vec) (keys nodes1)).
  { assert (Hv : incl (keys vec) (keys (create_missing vec nodes)))
      by (intros k Hk; apply create_missing_keys; auto).
    destruct (nodes_getitem_cases a (create_missing vec nodes))
      as [(n & Hn & E)|(Hn & E)]; rewrite E in Hget;
      injection Hget as <- <-; [auto|].
    split; [now apply table_ok_app_default|].
    split; [now apply table_all_app_default|].
    rewrite keys_app_default. now apply incl_appl. }
  destruct H1 as (Hok1 & Hall1 & Hvec).
  eapply table_all_estimate; [|exact Hest].
  destruct (is_neighbor sender) eqn:Hisn.
  - destruct (refresh_neighbor_cases now a vec nodes1 nodes2 sender
                Hsender Hbranch) as (m & Hm & ->).
    apply table_all_update; [exact Hall1|].
    intros v Hv. assert (v = sender) as ->
      by (apply (In_get a nodes1 v (proj1 Hok1)) in Hv; congruence).
    apply P_refresh; auto. now apply (proj2 Hok1).
  - assert (Hkeys : incl (keys nodes1) (keys nodes2))
      by (intros k Hk; eapply make_neighbor_keys; eassumption).
    rewrite (make_neighbor_fresh now a vec d nodes1 (proj1 Hok1)) in Hbranch.
    injection Hbranch as E. intros k v Hin. rewrite <- E in Hin.
    apply In_set in Hin. destruct Hin as [Hin|[-> ->]].
    + apply in_app_iff in Hin. destruct Hin as [Hin|[E'|[]]].
      * apply (P_more_keys (keys nodes1)); [exact Hkeys|].
        apply Hall1. eapply In_del. eassumption.
      * injection E' as <- <-. apply P_default.
    + apply P_new_neighbor; [exact Ha|].
      intros x Hx. apply Hkeys, Hvec, Hx.
Qed.

Lemma table_all_silence_expired (a : addr) (monitor : ResettableTimer)
    (nodes nodes' : table) :
  table_ok nodes -> table_all P nodes ->
  silence_expired a monitor nodes = Ok nodes' -> table_all P nodes'.
Proof.
  intros Hok H. unfold silence_expired, run_callback.
  destruct (Timer_function (countdown monitor)).
  destruct (linkdown _ nodes) as [[r nodes1]|] eqn:Hdown; simpl;
    [|discriminate].
  intros [= <-].
  pose proof (table_all_linkdown _ nodes r nodes1 Hok H Hdown) as H1.
  apply table_all_update; [exact H1|].
  intros v Hv. destruct (silence_monitor v) as [m|] eqn:Hm.
  - apply P_cancel; [now apply H1 | exact Hm].
  - now apply H1.
Qed.

(** A property of the nodes that the default node has and that every
    mutation of the handlers keeps holds of every node of every table of a
    run. *)
Lemma reachable_table_all (nodes : table) :
  reachable nodes -> table_all P nodes.
Proof.
  induction 1 as [nodes Hnd Hall|nodes nodes' Hreach IH Hstep].
  - rewrite Forall_forall in Hall. intros a n Hin.
    rewrite (Hall _ Hin : n = default_node). apply P_default.
  - destruct (reachable_ok nodes Hreach) as [Hok _].
    destruct Hstep as [now a vec d nodes' Ha Hrun
                      |sent Hrun
                      |a d r nodes' Ha Hrun
                      |a r nodes' Ha Hrun
                      |a r nodes' Ha Hrun
                      |now a n monitor nodes' Hn Hm Hdue Hrun].
    + eapply table_all_update_costs; eassumption.
    + exact IH.
    + eapply table_all_linkchange; eassumption.
    + eapply table_all_linkdown; eassumption.
    + eapply table_all_linkup; eassumption.
    + eapply table_all_silence_expired; eassumption.
Qed.

End NodeInvariant.

(** ** Properties of the nodes of a run *)

(** X7. In every table of a run, every destination of the vector stored
    with a node has an entry in the table. *)
Theorem X7_reachable_vectors_known (nodes : table) :
  reachable nodes -> vectors_known nodes.
Proof.
  intros Hreach a n v D Hin Hv HD.
  refine (reachable_table_all
            (fun ks _ n => forall v D, costs n = Some v ->
                                       In D (keys v) -> In D ks)
            _ _ _ _ _ _ _ _ _ nodes Hreach a n Hin v D Hv HD).
  - intros ks a0 n0 n' (_ & _ & Hc & _) H. now rewrite <- Hc.
  - intros ks ks' a0 n0 Hincl H v0 D0 Hv0 HD0. apply Hincl. eauto.
  - intros ks a0 v0 D0. discriminate.
  - intros ks now a0 vec d _ Hincl v0 D0 [= <-]. apply Hincl.
  - intros ks now a0 vec n0 m _ _ _ _ Hincl v0 D0 [= <-]. apply Hincl.
  - intros ks a0 n0 d _ H _. exact H.
  - intros ks a0 n0 d m _ H _ _ _. exact H.
  - intros ks a0 n0 d _ H _. exact H.
  - intros ks a0 n0 m H _. exact H.
Qed.

Lemma finished_never_due (m : ResettableTimer) :
  Timer_finished (countdown m) = true -> forall t, due t m = false.
Proof.
  intros H t. unfold due, Timer_deadline. rewrite H.
  now destruct (Timer_started (countdown m)).
Qed.

(** X8. In every table of a run, a node that is not a neighbor is of one
    of two kinds: it has the keys of a default node only, or it is a link
    taken down, with ['direct'] +infinity, ['costs'] and ['saved'] present
    and a cancelled monitor; in both cases no monitor of it is ever due. *)
Theorem X8_reachable_non_neighbor_shape (nodes : table) (a : addr)
    (n : node) :
  reachable nodes -> In (a, n) nodes -> is_neighbor n = false ->
  (never_neighbor n \/ taken_down n) /\
  forall m t, silence_monitor n = Some m -> due t m = false.
Proof.
  intros Hreach Hin Hisn.
  assert (H : never_neighbor n \/ taken_down n).
  { refine (reachable_table_all
              (fun _ _ n => is_neighbor n = false ->
                            never_neighbor n \/ taken_down n)
              _ _ _ _ _ _ _ _ _ nodes Hreach a n Hin Hisn).
    - intros ks a0 n0 n' (Hn & Hd & Hc & Hs & Hm) H H'.
      unfold never_neighbor, taken_down in *.
      rewrite <- Hd, <- Hc, <- Hs, <- Hm. apply H. congruence.
    - auto.
    - intros ks a0 _. left. repeat split.
    - intros ks now a0 vec d _ _. discriminate.
    - intros ks now a0 vec n0 m _ _ Hn0 _ _. simpl. congruence.
    - intros ks a0 n0 d _ _ Hn0. simpl. congruence.
    - intros ks a0 n0 d m (K1 & _) _ Hn0 Hd Hm _. right.
      destruct (K1 (or_introl Hn0)) as (_ & _ & Hc & _).
      unfold taken_down; simpl. repeat split; try congruence.
      exists (cancel m). auto.
    - intros ks a0 n0 d _ _ _. discriminate.
    - intros ks a0 n0 m H Hm Hn0. simpl in Hn0.
      destruct (H Hn0) as [(_ & _ & _ & Hnone)|(Hd & Hc & Hs & _)];
        [congruence|].
      right. unfold taken_down; simpl. repeat split; try assumption.
      exists (cancel m). auto. }
  split; [exact H|].
  intros m t Hm. apply finished_never_due.
  destruct H as [(_ & _ & _ & Hnone)|(_ & _ & _ & m' & Hm' & Hfin)];
    congruence.
Qed.

(** ** Expiry of a monitor *)


Lemma cancel_cancel (m : ResettableTimer) : cancel (cancel m) = cancel m.
Proof. reflexivity. Qed.

Lemma set_silence_monitor_id (n : node) :
  set_silence_monitor (silence_monitor n) n = n.
Proof. now destruct n. Qed.

(** The expiry of the monitor of a neighbor, in a well-formed table whose
    numbers fit: the thread of the countdown leaves the table that
    [linkdown] leaves, in which the node is not a neighbor and holds the
    monitor cancelled. *)
Lemma expiry_takes_down (a : addr) (nodes : table) (n : node)
    (m : ResettableTimer) :
  table_ok nodes -> numbers_fit nodes = true ->
  get a nodes = Some n -> is_neighbor n = true ->
  silence_monitor n = Some m ->
  exists nodes' n',
    linkdown a nodes = Ok (Done, nodes') /\
    silence_expired a m nodes = Ok nodes' /\
    get a nodes' = Some n' /\ is_neighbor n' = false /\
    silence_monitor n' = Some (cancel m) /\
    table_ok nodes' /\ numbers_fit nodes' = true.
Proof.
  intros Hok Hfit Hn Hisn Hm.
  pose proof (proj2 Hok a n (get_In a nodes n Hn)) as (_ & K2 & _).
  destruct (K2 m Hm) as (_ & _ & _ & _ & Htf & Hta).
  destruct (linkdown_runs a nodes n Hok Hfit Hn Hisn)
    as (nodes' & n' & d & m0 & Hdown & _ & Hn' & _ & Hm0 &
        (H1 & H2 & H3 & H4 & H5) & Hok' & Hfit').
  assert (m0 = m) as -> by congruence.
  simpl in *.
  exists nodes', n'. split; [exact Hdown|]. split.
  - unfold silence_expired, run_callback. rewrite Htf, Hta, Hdown. simpl.
    rewrite update_id; [reflexivity|].
    intros v Hv'. assert (v = n') as -> by congruence.
    rewrite <- H5, cancel_cancel, H5. apply set_silence_monitor_id.
  - split; [exact Hn'|]. split; [congruence|]. split; [congruence|].
    split; [exact Hok' | exact Hfit'].
Qed.

(** ** C7: the silence monitor of a neighbor *)


(** ** Further properties of the link commands *)

Lemma keys_after_mutation (a : addr) (f : node -> node)
    (nodes nodes' : table) :
  estimate_costs (update a f nodes) = Ok nodes' -> keys nodes' = keys nodes.
Proof.
  intros Hrun.
  rewrite <- (same_links_keys _ _ (estimate_costs_same_links _ _ Hrun)).
  apply keys_update.
Qed.

(** X9. [linkchange] on a known address of a well-formed table whose
    numbers fit a float: for a neighbor and a cost that is not below 1 and
    fits a float it returns, the ['direct'] of the node is the new cost and
    its other keys but ['cost'] and ['route'] are as before; for a node that
    is not a neighbor, and for a neighbor and a cost below 1, it answers so
    and the table is unchanged. *)
Theorem X9_linkchange_known_address (a : addr) (d : number)
    (nodes : table) (n : node) :
  table_ok nodes -> numbers_fit nodes = true -> get a nodes = Some n ->
  (is_neighbor n = true -> ltb d (Fin 1) = false -> fits d = true ->
     exists nodes' n',
       linkchange a d nodes = Ok (Done, nodes') /\
       keys nodes' = keys nodes /\
       get a nodes' = Some n' /\ direct n' = Some d /\
       is_neighbor n' = true /\ costs n' = costs n /\ saved n' = None /\
       silence_monitor n' = silence_monitor n) /\
  (is_neighbor n = false ->
     linkchange a d nodes = Ok (NotNeighborCantChange, nodes)) /\
  (is_neighbor n = true -> ltb d (Fin 1) = true ->
     linkchange a d nodes = Ok (MinimumLinkCost, nodes)).
Proof.
  intros Hok Hfit Hn. unfold linkchange.
  rewrite (get_node_known a nodes n Hn).
  simpl. split; [|split].
  - intros Hisn Hlt Hd. rewrite Hisn, Hlt. simpl.
    pose proof (proj2 Hok a n (get_In a nodes n Hn)) as (K1 & K2 & K3).
    rewrite (K3 Hisn).
    destruct (mutate_then_estimate a (set_direct (Some d)) nodes n Hok Hfit
                Hn)
      as (nodes' & n' & Hrun & Hn' & (H1 & H2 & H3 & H4 & H5) & _).
    { destruct (K1 (or_introl Hisn)) as (Ha & _ & Hv & Hm).
      unfold node_ok; simpl.
      split; [intros _; repeat split; congruence|]. auto. }
    { apply node_fits_change; [|exact Hd].
      eapply numbers_fit_In; [exact Hfit | eapply get_In; exact Hn]. }
    simpl in *. exists nodes', n'. rewrite Hrun. simpl.
    split; [reflexivity|].
    split; [eapply keys_after_mutation; eassumption|].
    pose proof (K3 Hisn). repeat split; congruence.
  - intros Hisn. now rewrite Hisn.
  - intros Hisn Hlt. now rewrite Hisn, Hlt.
Qed.

(** X10. [linkdown] on a neighbor of a well-formed table whose numbers fit
    a float returns; the node is no longer a neighbor, its old ['direct'] is
    in ['saved'], its ['direct'] is +infinity, its vector is kept and its
    monitor is the old one cancelled, which is never due; the addresses of
    the table are the same; and a second [linkdown] answers that the node is
    not a neighbor and changes nothing, so ['saved'] is not overwritten. *)
Theorem X10_linkdown_neighbor (a : addr) (nodes : table) (n : node) :
  table_ok nodes -> numbers_fit nodes = true ->
  get a nodes = Some n -> is_neighbor n = true ->
  exists nodes' n' d m,
    linkdown a nodes = Ok (Done, nodes') /\
    keys nodes' = keys nodes /\
    get a nodes' = Some n' /\ is_neighbor n' = false /\
    direct n = Some d /\ saved n' = Some d /\ direct n' = Some Inf /\
    costs n' = costs n /\
    silence_monitor n = Some m /\ silence_monitor n' = Some (cancel m) /\
    (forall t, due t (cancel m) = false) /\
    linkdown a nodes' = Ok (NotNeighborCantTakeDown, nodes').
Proof.
  intros Hok Hfit Hn Hisn.
  destruct (linkdown_runs a nodes n Hok Hfit Hn Hisn)
    as (nodes' & n' & d & m & Hdown & Hkeys & Hn' & Hd & Hm &
        (H1 & H2 & H3 & H4 & H5) & _).
  simpl in *. exists nodes', n', d, m.
  split; [exact Hdown|]. split; [exact Hkeys|]. split; [exact Hn'|].
  split; [congruence|]. split; [exact Hd|]. split; [congruence|].
  split; [congruence|]. split; [congruence|].
  split; [exact Hm|]. split; [congruence|].
  split; [now apply finished_never_due|].
  unfold linkdown. rewrite (get_node_known a nodes' n' Hn'). simpl.
  now rewrite <- H1.
Qed.

(** X11. [linkup] on a node of a well-formed table whose numbers fit a
    float, when the node has ['saved'], returns; the node is a neighbor, its
    ['direct'] is the saved cost, ['saved'] is gone, its vector and its
    monitor are untouched; and a second [linkup] answers that the node was
    not a previous neighbor and changes nothing. *)
Theorem X11_linkup_saved (a : addr) (nodes : table) (n : node)
    (d : number) :
  table_ok nodes -> numbers_fit nodes = true ->
  get a nodes = Some n -> saved n = Some d ->
  exists nodes' n',
    linkup a nodes = Ok (Done, nodes') /\
    keys nodes' = keys nodes /\
    get a nodes' = Some n' /\ is_neighbor n' = true /\
    direct n' = Some d /\ saved n' = None /\ costs n' = costs n /\
    silence_monitor n' = silence_monitor n /\
    linkup a nodes' = Ok (WasntPreviousNeighbor, nodes').
Proof.
  intros Hok Hfit Hn Hs.
  destruct (linkup_runs a nodes n d Hok Hfit Hn Hs)
    as (nodes' & n' & Hup & Hkeys & Hn' & (H1 & H2 & H3 & H4 & H5) & _).
  simpl in *. exists nodes', n'.
  split; [exact Hup|]. split; [exact Hkeys|].
  split; [exact Hn'|]. split; [congruence|]. split; [congruence|].
  split; [congruence|]. split; [congruence|]. split; [congruence|].
  unfold linkup. rewrite (get_node_known a nodes' n' Hn'). simpl.
  now rewrite <- H4.
Qed.

(** X12. When the countdown of the monitor of a neighbor expires, in a
    well-formed table whose numbers fit a float, the table is left exactly
    as the command [linkdown] on that neighbor leaves it; in that table no
    monitor of the node is ever due, so the expiry takes the link down
    once. *)
Theorem X12_silence_expired_is_linkdown (a : addr) (nodes : table)
    (n : node) (m : ResettableTimer) :
  table_ok nodes -> numbers_fit nodes = true ->
  get a nodes = Some n -> is_neighbor n = true ->
  silence_monitor n = Some m ->
  exists nodes',
    linkdown a nodes = Ok (Done, nodes') /\
    silence_expired a m nodes = Ok nodes' /\
    forall n' m' t,
      get a nodes' = Some n' -> silence_monitor n' = Some m' ->
      due t m' = false.
Proof.
  intros Hok Hfit Hn Hisn Hm.
  destruct (expiry_takes_down a nodes n m Hok Hfit Hn Hisn Hm)
    as (nodes' & n' & Hdown & Hexp & Hn' & _ & Hm' & _).
  exists nodes'. split; [exact Hdown|]. split; [exact Hexp|].
  intros n0 m' t Hn0 Hm0. apply finished_never_due.
  assert (n0 = n') as -> by congruence.
  rewrite Hm' in Hm0. now injection Hm0 as <-.
Qed.

(** ** Next hops are neighbors *)

Lemma same_links_In_fwd (s s' : table) (a : addr) (n : node) :
  same_links s s' -> In (a, n) s ->
  exists n', In (a, n') s' /\ same_link n n'.
Proof.
  induction 1 as [|[k v] [k' v'] l l' [Hk Hl] _ IH]; simpl; [tauto|].
  simpl in Hk, Hl. subst k'. intros [E|Hin].
  - injection E as <- <-. exists v'. auto.
  - destruct (IH Hin) as (n0 & Hin0 & Hl0). exists n0. auto.
Qed.

Lemma In_update_fwd {V : Type} (a : addr) (f : V -> V) (d : dict V)
    (k : addr) (v : V) :
  In (k, v) d -> In (k, v) (update a f d) \/ In (k, f v) (update a f d).
Proof.
  induction d as [|[k0 v0] d IH]; simpl; [tauto|].
  destruct (String.eqb_spec k0 a) as [->|Hne]; simpl.
  - intros [E|Hin]; [injection E as <- <-; auto | auto].
  - intros [E|Hin]; [auto|]. destruct (IH Hin); auto.
Qed.

(** After a pass the next hop of every destination but this node is
    empty or a neighbor. *)
Lemma estimate_costs_via (nodes nodes' : table) :
  NoDup (keys nodes') -> estimate_costs nodes = Ok nodes' ->
  routes_via_neighbors nodes'.
Proof.
  intros Hnd Hrun a n' Hin Ha.
  pose proof (estimate_costs_same_links _ _ Hrun) as Hsame.
  apply (In_get a nodes' n' Hnd) in Hin.
  pose proof (estimate_costs_settled nodes nodes' a n' Hrun Ha Hin) as Hs.
  apply cheapest_spec in Hs. destruct Hs as (_ & _ & Hsel).
  destruct Hsel as [[_ ->]|(nb & Hnb & _)]; [now left|].
  right. apply In_get_neighbors in Hnb. destruct Hnb as [Hnb Hisn].
  destruct (same_links_In_fwd _ _ _ _ Hsame Hnb) as (nb' & Hnb' & (Hl & _)).
  exists nb'. split; [exact Hnb' | congruence].
Qed.

Lemma routes_via_app_default (a : addr) (nodes : table) :
  routes_via_neighbors nodes ->
  routes_via_neighbors (nodes ++ [(a, default_node)]).
Proof.
  intros H k v Hin Hk. apply in_app_iff in Hin.
  destruct Hin as [Hin|[E|[]]].
  - destruct (H k v Hin Hk) as [?|(nb & Hnb & Hisn)]; [now left|].
    right. exists nb. split; [apply in_or_app; now left | exact Hisn].
  - injection E as <- <-. now left.
Qed.

Lemma routes_via_update (a : addr) (f : node -> node) (nodes : table) :
  (forall n, route (f n) = route n /\ is_neighbor (f n) = is_neighbor n) ->
  routes_via_neighbors nodes -> routes_via_neighbors (update a f nodes).
Proof.
  intros Hf H k v Hin Hk.
  assert (Hold : exists v0, In (k, v0) nodes /\ route v = route v0).
  { apply In_update in Hin. destruct Hin as [Hin|(v0 & -> & Hin & ->)].
    - exists v. auto.
    - exists v0. split; [exact Hin | apply Hf]. }
  destruct Hold as (v0 & Hin0 & ->).
  destruct (H k v0 Hin0 Hk) as [?|(nb & Hnb & Hisn)]; [now left|].
  right. destruct (In_update_fwd a f nodes _ _ Hnb) as [Hnb'|Hnb'].
  - exists nb. auto.
  - exists (f nb). split; [exact Hnb'|]. now rewrite (proj2 (Hf nb)).
Qed.

Lemma linkchange_via (a : addr) (d : number) (nodes : table) r nodes' :
  table_ok nodes -> routes_via_neighbors nodes ->
  linkchange a d nodes = Ok (r, nodes') -> routes_via_neighbors nodes'.
Proof.
  intros Hok H Hrun. apply linkchange_cases in Hrun.
  destruct Hrun as [(_ & _ & ->)|(n & Hn & Hcase)].
  - now apply routes_via_app_default.
  - destruct Hcase as [(_ & _ & ->)|[(_ & _ & _ & ->)|
      [(_ & _ & _ & _ & ->)|(_ & _ & _ & _ & Hest)]]]; auto.
    eapply estimate_costs_via; [|exact Hest].
    rewrite (keys_after_mutation _ _ _ _ Hest). apply Hok.
Qed.

Lemma linkdown_via (a : addr) (nodes : table) r nodes' :
  table_ok nodes -> routes_via_neighbors nodes ->
  linkdown a nodes = Ok (r, nodes') -> routes_via_neighbors nodes'.
Proof.
  intros Hok H Hrun. apply linkdown_cases in Hrun.
  destruct Hrun as [(_ & _ & ->)|(n & Hn & Hcase)].
  - now apply routes_via_app_default.
  - destruct Hcase as [(_ & _ & ->)|(d & m & _ & _ & _ & _ & Hest)]; auto.
    eapply estimate_costs_via; [|exact Hest].
    rewrite (keys_after_mutation _ _ _ _ Hest). apply Hok.
Qed.

Lemma linkup_via (a : addr) (nodes : table) r nodes' :
  table_ok nodes -> routes_via_neighbors nodes ->
  linkup a nodes = Ok (r, nodes') -> routes_via_neighbors nodes'.
Proof.
  intros Hok H Hrun. apply linkup_cases in Hrun.
  destruct Hrun as [(_ & _ & ->)|(n & Hn & Hcase)].
  - now apply routes_via_app_default.
  - destruct Hcase as [(_ & _ & ->)|(d & _ & _ & Hest)]; auto.
    eapply estimate_costs_via; [|exact Hest].
    rewrite (keys_after_mutation _ _ _ _ Hest). apply Hok.
Qed.

Lemma reachable_via (nodes : table) :
  reachable nodes -> routes_via_neighbors nodes.
Proof.
  induction 1 as [nodes Hnd Hall|nodes nodes' Hreach IH Hstep].
  - rewrite Forall_forall in Hall. intros a n Hin _.
    rewrite (Hall _ Hin : n = default_node). now left.
  - destruct (reachable_ok nodes Hreach) as [Hok Hr].
    destruct (step_ok nodes nodes' Hstep Hok Hr) as [Hok' _].
    destruct Hstep as [now a vec d nodes' Ha Hrun
                      |sent Hrun
                      |a d r nodes' Ha Hrun
                      |a r nodes' Ha Hrun
                      |a r nodes' Ha Hrun
                      |now a n monitor nodes' Hn Hm Hdue Hrun].
    + destruct (update_costs_cases now a vec d nodes nodes' Hrun)
        as (_ & _ & nodes2 & _ & _ & _ & Hest).
      eapply estimate_costs_via; [apply Hok' | exact Hest].
    + exact IH.
    + exact (linkchange_via _ _ _ _ _ Hok IH Hrun).
    + exact (linkdown_via _ _ _ _ Hok IH Hrun).
    + exact (linkup_via _ _ _ _ Hok IH Hrun).
    + unfold silence_expired, run_callback in Hrun.
      destruct (Timer_function (countdown monitor)).
      destruct (linkdown _ nodes) as [[r nodes1]|] eqn:Hdown;
        simpl in Hrun; [|discriminate].
      injection Hrun as <-. apply routes_via_update.
      * intros n0. now destruct (silence_monitor n0).
      * exact (linkdown_via _ _ _ _ Hok IH Hdown).
Qed.

(** X13. After [linkdown] has taken a neighbor down, no destination other
    than this node is routed through it. *)
Theorem X13_linkdown_removes_routes (a : addr) (nodes nodes' : table) :
  table_ok nodes -> linkdown a nodes = Ok (Done, nodes') ->
  forall D n, In (D, n) nodes' -> D <> me -> route n <> a.
Proof.
  intros Hok Hrun D n Hin HD Hroute.
  pose proof (linkdown_cases a nodes Done nodes' Hrun) as Hcases.
  destruct Hcases as [(_ & E & _)|(n0 & Hn0 & Hcase)]; [discriminate|].
  destruct Hcase as [(_ & E & _)|(d & m & Hisn & Hd & Hm & _ & Hest)];
    [discriminate|].
  pose proof (proj2 Hok a n0 (get_In a nodes n0 Hn0)) as (K1 & _).
  destruct (K1 (or_introl Hisn)) as (Ha & _).
  assert (Hnd : NoDup (keys nodes'))
    by (rewrite (keys_after_mutation _ _ _ _ Hest); apply Hok).
  destruct (estimate_costs_via _ nodes' Hnd Hest D n Hin HD)
    as [Hempty|(nb & Hnb & Hnbn)]; [congruence|].
  rewrite Hroute in Hnb. apply (In_get a nodes' nb Hnd) in Hnb.
  pose proof (same_links_get _ _ a (estimate_costs_same_links _ _ Hest))
    as Hg.
  rewrite get_update_same, Hn0, Hnb in Hg. simpl in Hg.
  destruct Hg as (Hl & _). simpl in Hl. congruence.
Qed.

(** ** What showrt and show_neighbors print *)

Lemma show_neighbors_loop_rows (neighbors : table) :
  (forall b nb, In (b, nb) neighbors -> direct nb <> None) ->
  exists rows,
    show_neighbors_loop neighbors = Ok rows /\
    forall b c dr,
      In (b, c, dr) rows <->
      exists nb, In (b, nb) neighbors /\ c = cost nb /\ direct nb = Some dr.
Proof.
  induction neighbors as [|[b nb] rest IH]; intros Hall; simpl.
  - exists []. split; [reflexivity|]. intros b c dr. simpl.
    split; [tauto | intros (nb & [] & _)].
  - destruct (direct nb) as [d|] eqn:Hd;
      [|exfalso; now apply (Hall b nb (or_introl eq_refl))].
    destruct IH as (rows & -> & Hrows);
      [intros; apply (Hall b0 nb0); now right|].
    simpl. eexists. split; [reflexivity|].
    intros b' c dr. simpl. rewrite Hrows. split.
    + intros [E|(nb' & Hin & Hc & Hdr)].
      * injection E as <- <- <-. exists nb. auto.
      * exists nb'. auto.
    + intros (nb' & [E|Hin] & Hc & Hdr).
      * injection E as <- <-. left. congruence.
      * right. exists nb'. auto.
Qed.

Lemma In_showrt (nodes : table) (D : addr) (c : number) (nh : addr) :
  In (D, c, nh) (showrt nodes) <->
  exists n, In (D, n) nodes /\ D <> me /\ c = cost n /\ nh = route n.
Proof.
  unfold showrt. rewrite in_map_iff. split.
  - intros ([k n] & E & Hin). apply filter_In in Hin.
    simpl in *. destruct Hin as [Hin Hk]. injection E as <- <- <-.
    exists n. split; [exact Hin|].
    destruct (String.eqb_spec k me); [discriminate | auto].
  - intros (n & Hin & HD & -> & ->). exists (D, n). split; [reflexivity|].
    apply filter_In. split; [exact Hin|]. simpl.
    destruct (String.eqb_spec D me); [contradiction | reflexivity].
Qed.

(** X14. On every table of a run [show_neighbors] returns, and its rows
    are the neighbors of the table with their cost and direct cost;
    [showrt] has a row for every address but this node, and none for this
    node; and each row of [showrt] has either cost +infinity and no link, or
    a finite cost and, as its link, an address that [show_neighbors]
    lists. *)
Theorem X14_showrt_links_are_shown_neighbors (nodes : table) :
  reachable nodes ->
  exists rows,
    show_neighbors nodes = Ok rows /\
    (forall b c dr,
       In (b, c, dr) rows <->
       exists nb, In (b, nb) nodes /\ is_neighbor nb = true /\
                  c = cost nb /\ direct nb = Some dr) /\
    (forall D n, In (D, n) nodes -> D <> me ->
       In (D, cost n, route n) (showrt nodes)) /\
    forall D c nh, In (D, c, nh) (showrt nodes) ->
      D <> me /\
      ((c = Inf /\ nh = "") \/
       (c <> Inf /\ exists c' dr, In (nh, c', dr) rows)).
Proof.
  intros Hreach. destruct (reachable_ok nodes Hreach) as [Hok Hr].
  pose proof (reachable_via nodes Hreach) as Hvia.
  destruct (show_neighbors_loop_rows (get_neighbors nodes))
    as (rows & Hrun & Hrows).
  { intros b nb Hin. now apply (table_ok_complete nodes Hok b nb). }
  exists rows. split; [exact Hrun|]. split; [|split].
  - intros b c dr. rewrite Hrows. split.
    + intros (nb & Hin & Hc & Hd). apply In_get_neighbors in Hin.
      exists nb. tauto.
    + intros (nb & Hin & Hisn & Hc & Hd). exists nb.
      split; [apply In_get_neighbors; auto | auto].
  - intros D n Hin HD. apply In_showrt. exists n. auto.
  - intros D c nh Hin. apply In_showrt in Hin.
    destruct Hin as (n & Hin & HD & -> & ->). split; [exact HD|].
    pose proof (Hr D n Hin HD) as Hiff.
    destruct (Hvia D n Hin HD) as [Hempty|(nb & Hnb & Hisn)].
    + left. split; [|exact Hempty].
      destruct (cost n) as [z|] eqn:Ec; [|reflexivity].
      exfalso. apply (proj2 Hiff); [discriminate | exact Hempty].
    + pose proof (proj2 Hok _ _ Hnb) as (K1 & _).
      destruct (K1 (or_introl Hisn)) as (Hne & Hd & _).
      right. split; [tauto|].
      destruct (direct nb) as [dr|] eqn:Ed; [|congruence].
      exists (cost nb), dr. apply Hrows. exists nb.
      split; [apply In_get_neighbors; auto | auto].
Qed.

(** ** The addresses of a datagram *)

Lemma poison_fold_keys (N : addr) (nodes : table) :
  forall (todo acc : vector),
    incl (keys todo) (keys acc) ->
    keys
      (fold_left
         (fun poisoned_costs dest =>
            let dest_addr := fst dest in
            if negb (String.eqb dest_addr me || String.eqb dest_addr N)
            then
              if String.eqb (route (fst (nodes_getitem dest_addr nodes))) N
              then set dest_addr Inf poisoned_costs
              else poisoned_costs
            else poisoned_costs)
         todo acc) = keys acc.
Proof.
  induction todo as [|[k c] rest IH]; intros acc Hincl; [reflexivity|].
  cbn [fold_left fst]. simpl in Hincl.
  assert (Hk : In k (keys acc)) by (apply Hincl; now left).
  assert (Hrest : incl (keys rest) (keys acc))
    by (intros x Hx; apply Hincl; now right).
  destruct (negb (String.eqb k me || String.eqb k N)); [|now apply IH].
  destruct (String.eqb (route (fst (nodes_getitem k nodes))) N);
    [|now apply IH].
  rewrite IH; rewrite (keys_set_present k Inf acc Hk); auto.
Qed.

Lemma broadcast_loop_payload (nodes : table) (vec : vector) :
  forall neighbors sent N p,
    broadcast_loop neighbors nodes vec = Ok sent -> In (N, p) sent ->
    payload_costs p = poison N nodes vec.
Proof.
  induction neighbors as [|[b nb] rest IH]; intros sent N p; simpl.
  - intros [= <-] [].
  - destruct (direct nb) as [d|]; simpl; [|discriminate].
    destruct (broadcast_loop rest nodes vec) as [sent'|] eqn:Hrest; simpl;
      [|discriminate].
    intros [= <-] [E|Hin].
    + now injection E as <- <-.
    + eapply IH; [reflexivity | exact Hin].
Qed.

(** X15. Every datagram of a broadcast has a cost for every address of
    the table, in the order of the table and for no other address: this
    node and the neighbor it is sent to are listed like the others. *)
Theorem X15_broadcast_lists_every_address (nodes : table)
    (sent : list (addr * payload)) (N : addr) (p : payload) :
  broadcast_costs nodes = Ok sent -> In (N, p) sent ->
  keys (payload_costs p) = keys nodes.
Proof.
  unfold broadcast_costs. intros Hrun Hin.
  rewrite (broadcast_loop_payload _ _ _ _ _ _ Hrun Hin).
  unfold poison. rewrite poison_fold_keys by apply incl_refl.
  unfold keys. rewrite map_map. reflexivity.
Qed.

(** ** No handler raises on a table of a run whose numbers fit *)

Lemma linkchange_total (a : addr) (d : number) (nodes : table) :
  table_ok nodes -> numbers_fit nodes = true -> fits d = true ->
  exists r nodes', linkchange a d nodes = Ok (r, nodes').
Proof.
  intros Hok Hfit Hd. unfold linkchange.
  destruct (get a nodes) as [n|] eqn:Hn.
  - rewrite (get_node_known a nodes n Hn). simpl.
    destruct (is_neighbor n) eqn:Hisn; simpl; [|eauto].
    destruct (ltb d (Fin 1)); [eauto|].
    destruct (saved n); [eauto|].
    destruct (mutate_then_estimate a (set_direct (Some d)) nodes n Hok Hfit
                Hn)
      as (nodes' & _ & -> & _).
    { pose proof (proj2 Hok a n (get_In a nodes n Hn)) as (K1 & K2 & K3).
      destruct (K1 (or_introl Hisn)) as (Ha & _ & Hv & Hm).
      unfold node_ok; simpl.
      split; [intros _; repeat split; congruence|]. auto. }
    { apply node_fits_change; [|exact Hd].
      eapply numbers_fit_In; [exact Hfit | eapply get_In; exact Hn]. }
    simpl. eauto.
  - rewrite (get_node_unknown a nodes Hn). simpl. eauto.
Qed.

Lemma linkdown_total (a : addr) (nodes : table) :
  table_ok nodes -> numbers_fit nodes = true ->
  exists r nodes', linkdown a nodes = Ok (r, nodes').
Proof.
  intros Hok Hfit. destruct (get a nodes) as [n|] eqn:Hn.
  - destruct (is_neighbor n) eqn:Hisn.
    + destruct (linkdown_runs a nodes n Hok Hfit Hn Hisn)
        as (nodes' & _ & _ & _ & Hrun & _).
      eauto.
    + unfold linkdown. rewrite (get_node_known a nodes n Hn). simpl.
      rewrite Hisn. simpl. eauto.
  - unfold linkdown. rewrite (get_node_unknown a nodes Hn). simpl. eauto.
Qed.

Lemma linkup_total (a : addr) (nodes : table) :
  table_ok nodes -> numbers_fit nodes = true ->
  exists r nodes', linkup a nodes = Ok (r, nodes').
Proof.
  intros Hok Hfit. destruct (get a nodes) as [n|] eqn:Hn.
  - destruct (saved n) as [d|] eqn:Hs.
    + destruct (linkup_runs a nodes n d Hok Hfit Hn Hs)
        as (nodes' & _ & Hrun & _).
      eauto.
    + unfold linkup. rewrite (get_node_known a nodes n Hn). simpl.
      rewrite Hs. eauto.
  - unfold linkup. rewrite (get_node_unknown a nodes Hn). simpl. eauto.
Qed.

Lemma update_costs_total (now : Z) (a : addr) (vec : vector) (d : number)
    (nodes : table) :
  table_ok nodes -> numbers_fit nodes = true ->
  vector_fits vec = true -> fits d = true -> a <> "" ->
  exists nodes', update_costs now a vec d nodes = Ok nodes'.
Proof.
  intros Hok Hfit Hvec Hd Ha. unfold update_costs.
  pose proof (create_missing_ok vec nodes Hok) as Hokc.
  pose proof (numbers_fit_create_missing vec nodes Hfit) as Hfitc.
  pose proof (nodes_getitem_fits a _ Hfitc) as Hfit1.
  destruct (nodes_getitem a (create_missing vec nodes))
    as [sender nodes1] eqn:Hget.
  simpl in Hfit1.
  assert (H1 : table_ok nodes1 /\ get a nodes1 = Some sender).
  { destruct (nodes_getitem_cases a (create_missing vec nodes))
      as [(n & Hn & E)|(Hn & E)]; rewrite E in Hget;
      injection Hget as <- <-; [auto|].
    split; [now apply table_ok_app_default | now apply get_app_default]. }
  destruct H1 as (Hok1 & Hsender).
  destruct (is_neighbor sender) eqn:Hisn; simpl.
  - pose proof (proj2 Hok1 a sender (get_In a nodes1 sender Hsender))
      as (K1 & _).
    destruct (K1 (or_introl Hisn)) as (_ & _ & _ & Hm).
    destruct (silence_monitor sender) as [m|] eqn:Em; [|congruence].
    unfold refresh_neighbor, nodes_getitem. rewrite Hsender. simpl.
    rewrite Em. simpl.
    apply estimate_costs_total.
    + apply table_ok_complete.
      eapply (refresh_neighbor_ok now a vec nodes1 _ sender Hok1 Hsender
                Hisn).
      unfold refresh_neighbor, nodes_getitem. rewrite Hsender. simpl.
      rewrite Em. reflexivity.
    + apply numbers_fit_sums.
      apply (numbers_fit_update a _ nodes1 sender Hfit1 Hsender).
      pose proof (node_fits_parts sender
                    (numbers_fit_In nodes1 a sender Hfit1
                       (get_In a nodes1 sender Hsender)))
        as (F1 & F2 & _).
      now apply node_fits_make.
  - rewrite (make_neighbor_fresh now a vec d nodes1 (proj1 Hok1)). simpl.
    apply estimate_costs_total.
    + apply table_ok_complete.
      apply (make_neighbor_ok now a vec d nodes1); [exact Ha | exact Hok1|].
      apply make_neighbor_fresh, Hok1.
    + apply numbers_fit_sums.
      apply numbers_fit_set; [|now apply node_fits_new_neighbor].
      apply numbers_fit_app; [|reflexivity].
      now apply numbers_fit_del.
Qed.

(** X16. On a table of a run whose numbers fit a float no handler of the
    table raises: an advertisement from any non-empty address with a vector
    and a claimed direct cost that fit, [linkchange] on any address with a
    cost that fits, [linkdown] and [linkup] on any address and the expiry of
    any monitor all run to the end. *)
Theorem X16_reachable_handlers_return (nodes : table) :
  reachable nodes -> numbers_fit nodes = true ->
  (forall now a vec d,
     a <> "" -> vector_fits vec = true -> fits d = true ->
     exists nodes', update_costs now a vec d nodes = Ok nodes') /\
  (forall a d,
     fits d = true ->
     exists r nodes', linkchange a d nodes = Ok (r, nodes')) /\
  (forall a, exists r nodes', linkdown a nodes = Ok (r, nodes')) /\
  (forall a, exists r nodes', linkup a nodes = Ok (r, nodes')) /\
  (forall a monitor,
     exists nodes', silence_expired a monitor nodes = Ok nodes').
Proof.
  intros Hreach Hfit. destruct (reachable_ok nodes Hreach) as [Hok _].
  split; [intros; now apply update_costs_total|].
  split; [intros; now apply linkchange_total|].
  split; [intros; now apply linkdown_total|].
  split; [intros; now apply linkup_total|].
  intros a monitor. unfold silence_expired, run_callback.
  destruct (Timer_function (countdown monitor)).
  destruct (linkdown_total (Timer_args (countdown monitor)) nodes Hok Hfit)
    as (r & nodes1 & ->).
  simpl. eauto.
Qed.

(** ** The monitor *)

(** X17. [reset] never raises, whatever the countdown of the monitor was
    (not started, running, cancelled): it leaves the interval, the function
    and the arguments of the monitor as they are and a countdown that is
    due from [now + interval] on and not before; a cancelled monitor is never
    due, and resetting it gives what resetting the monitor gives. *)
Theorem X17_reset_restarts (now : Z) (m : ResettableTimer) :
  (exists m',
     reset now m = Ok m' /\
     interval m' = interval m /\ func m' = func m /\ args m' = args m /\
     forall t, due t m' = true <-> now + interval m <= t) /\
  (forall t, due t (cancel m) = false) /\
  reset now (cancel m) = reset now m.
Proof.
  split; [|split].
  - rewrite reset_started. eexists. split; [reflexivity|]. simpl.
    repeat split; try reflexivity.
    + unfold due, Timer_deadline; simpl. apply Z.leb_le.
    + unfold due, Timer_deadline; simpl. apply Z.leb_le.
  - intros t. now apply finished_never_due.
  - reflexivity.
Qed.

End Client.

(** * The node "A:1" with a broadcast period of 10 *)

(** ** The example tables are tables of a run *)

Lemma example_up_reachable : reachable "A:1" 10 example_up.
Proof.
  apply (reachable_step "A:1" 10 [] example_up).
  - apply reachable_init; constructor.
  - apply (step_update_costs "A:1" 10 [] 0 "B:2" [] (Fin 2) example_up).
    + discriminate.
    + reflexivity.
Qed.

Lemma example_down_reachable : reachable "A:1" 10 example_down.
Proof.
  apply (reachable_step "A:1" 10 example_up example_down).
  - exact example_up_reachable.
  - apply (step_linkdown "A:1" 10 example_up "B:2" Done example_down).
    + discriminate.
    + reflexivity.
Qed.

Lemma example_routed_reachable : reachable "A:1" 10 example_routed.
Proof.
  apply (reachable_step "A:1" 10 [] example_routed).
  - apply reachable_init; constructor.
  - apply (step_update_costs "A:1" 10 [] 0 "C:3" [("B:2", Fin 4)] (Fin 1)
             example_routed).
    + discriminate.
    + reflexivity.
Qed.

Lemma example_routed_complete : neighbors_complete example_routed.
Proof.
  apply (table_ok_complete 10).
  exact (proj1 (reachable_ok "A:1" 10 _ example_routed_reachable)).
Qed.

Lemma example_down_ok : table_ok 10 example_down.
Proof. exact (proj1 (reachable_ok "A:1" 10 _ example_down_reachable)). Qed.

(** ** Instances of the theorems *)


Lemma C2_broadcast_poison_reverse_witness :
  neighbors_complete example_routed /\
  exists sent,
    broadcast_costs "A:1" example_routed = Ok sent /\
    map fst sent = keys (get_neighbors example_routed) /\
    forall N p, In (N, p) sent ->
      (exists nb, In (N, nb) (get_neighbors example_routed) /\
                  direct nb = Some (payload_neighbor_direct p)) /\
      (forall D, get D example_routed = None ->
         get D (payload_costs p) = None) /\
      (forall D n, get D example_routed = Some n ->
         (D <> "A:1" -> D <> N -> route n = N ->
            get D (payload_costs p) = Some Inf) /\
         (D = "A:1" \/ D = N \/ route n <> N ->
            get D (payload_costs p) = Some (cost n))).
Proof.
  split.
  - exact example_routed_complete.
  - exact (C2_broadcast_poison_reverse "A:1" example_routed
             example_routed_complete).
Defined.

Lemma C6_unknown_node_gets_default_entry_witness :
  get "Z:9" example_up = None /\
  linkup "A:1" "Z:9" example_up =
    Ok (NodeNotInNetwork, example_up ++ [("Z:9", default_node)]) /\
  linkdown "A:1" "Z:9" example_up =
    Ok (NodeNotInNetwork, example_up ++ [("Z:9", default_node)]) /\
  linkchange "A:1" "Z:9" (Fin 4) example_up =
    Ok (NodeNotInNetwork, example_up ++ [("Z:9", default_node)]).
Proof.
  split.
  - reflexivity.
  - apply (C6_unknown_node_gets_default_entry "A:1" "Z:9" (Fin 4) example_up).
    reflexivity.
Defined.


Lemma C9_route_iff_finite_cost_witness :
  reachable "A:1" 10 example_routed /\
  In ("B:2", example_B_routed) example_routed /\
  "B:2" <> "A:1" /\
  (route example_B_routed <> "" <-> cost example_B_routed <> Inf).
Proof.
  split; [exact example_routed_reachable|].
  split; [simpl; auto|]. split; [discriminate|].
  apply (C9_route_iff_finite_cost "A:1" 10 example_routed "B:2"
           example_B_routed).
  - exact example_routed_reachable.
  - simpl. auto.
  - discriminate.
Defined.


(** ** C6 as stated fails *)

(** C6 (as stated). A link command on ["Z:9"], which the table does not
    have, answers that the node is not in the network, and the table it
    leaves has a default node for ["Z:9"]: it is not the table of before. *)
Lemma C6_unknown_node_creates_entry :
  get "Z:9" example_up = None /\
  linkdown "A:1" "Z:9" example_up =
    Ok (NodeNotInNetwork, [("B:2", example_B_up); ("Z:9", default_node)]) /\
  linkup "A:1" "Z:9" example_up =
    Ok (NodeNotInNetwork, [("B:2", example_B_up); ("Z:9", default_node)]) /\
  linkchange "A:1" "Z:9" (Fin 4) example_up =
    Ok (NodeNotInNetwork, [("B:2", example_B_up); ("Z:9", default_node)]) /\
  get "Z:9" [("B:2", example_B_up); ("Z:9", default_node)] =
    Some default_node /\
  [("B:2", example_B_up); ("Z:9", default_node)] <> example_up.
Proof.
  repeat split; try reflexivity. discriminate.
Qed.

(** ** Where the code departs from C3, C4 and C5 *)

(** C3. ["B:2"] is known at cost 5 and is not a neighbor.  The node that
    lines 86-92 build when its advertisement arrives has the cost of a
    default node, +infinity, and not 5.  When the sender is this node
    itself, whose entry the relaxation skips, the cost 0 of the entry is
    lost for good. *)
Lemma C3_new_neighbor_cost_not_carried_over :
  get "B:2" example_routed = Some example_B_routed /\
  cost example_B_routed = Fin 5 /\
  make_neighbor 10 7 "B:2" [("B:2", Fin 0)] (Fin 7) example_routed =
    Ok [("C:3", example_C_up);
        ("B:2", mk_node Inf true "B:2" (Some (Fin 7))
                  (Some [("B:2", Fin 0)]) None
                  (Some (example_monitor "B:2" 7 false)))] /\
  update_costs "A:1" 10 4 "A:1" [("A:1", Fin 0)] (Fin 3) example_self =
    Ok [("A:1", mk_node Inf true "A:1" (Some (Fin 3))
                  (Some [("A:1", Fin 0)]) None
                  (Some (example_monitor "A:1" 4 false)))].
Proof. repeat split. Qed.

(** C4. After [linkdown] the node of ["B:2"] has ['saved'], and
    [linkchange] answers that ["B:2"] is not a neighbor: the answer that the
    link is down and must be brought up first is not given. *)
Lemma C4_linkchange_on_down_link :
  linkdown "A:1" "B:2" example_up = Ok (Done, example_down) /\
  saved example_B_down = Some (Fin 2) /\
  linkchange "A:1" "B:2" (Fin 5) example_down =
    Ok (NotNeighborCantChange, example_down).
Proof. repeat split. Qed.

(** C5. [linkdown] then [linkup] on ["B:2"]: the ['direct'] of 2 is back,
    ['saved'] is gone and ["B:2"] is a neighbor, but its monitor is the
    cancelled one: it has no deadline and is never due. *)
Lemma C5_linkup_leaves_monitor_cancelled :
  linkdown "A:1" "B:2" example_up = Ok (Done, example_down) /\
  linkup "A:1" "B:2" example_down = Ok (Done, example_restored) /\
  get "B:2" example_restored = Some example_B_restored /\
  direct example_B_restored = direct example_B_up /\
  saved example_B_restored = None /\
  is_neighbor example_B_restored = true /\
  silence_monitor example_B_restored =
    Some (example_monitor "B:2" 0 true) /\
  Timer_deadline (countdown (example_monitor "B:2" 0 true)) = None /\
  forall now, due now (example_monitor "B:2" 0 true) = false.
Proof. repeat split. Qed.

(** ** Instances of the further properties *)

Lemma example_up_ok : table_ok 10 example_up.
Proof. exact (proj1 (reachable_ok "A:1" 10 _ example_up_reachable)). Qed.

Lemma X1_cheapest_first_in_scan_order_witness :
  cheapest "B:2" example_tie (Inf, "") = Ok (Fin 5, "C:3") /\
  Fin 5 <> Inf /\
  exists before nb after,
    example_tie = before ++ ("C:3", nb) :: after /\
    candidate "B:2" nb = Fin 5 /\
    (forall b nb', In (b, nb') before ->
       ltb (Fin 5) (candidate "B:2" nb') = true) /\
    (forall b nb', In (b, nb') after -> le (Fin 5) (candidate "B:2" nb')).
Proof.
  split; [reflexivity|]. split; [discriminate|].
  apply (X1_cheapest_first_in_scan_order "B:2" example_tie (Fin 5) "C:3").
  - reflexivity.
  - discriminate.
Defined.


(** The first advertisement of ["B:2"] with such numbers: the handler
    raises at the sum of line 65. *)
Lemma update_costs_overflow_example :
  update_costs "A:1" 10 0 "B:2" [("C:3", Inf)] (Fin (2 ^ 1024)) [] =
    Raise (OverflowError "int too large to convert to float") /\
  make_neighbor 10 0 "B:2" [("C:3", Inf)] (Fin (2 ^ 1024))
    [("C:3", default_node); ("B:2", default_node)] = Ok example_huge.
Proof. split; reflexivity. Qed.

Lemma X3_estimate_costs_without_neighbors_witness :
  get_neighbors example_down = [] /\
  exists nodes',
    estimate_costs "A:1" example_down = Ok nodes' /\
    keys nodes' = keys example_down /\
    forall a n', get a nodes' = Some n' -> a <> "A:1" ->
      cost n' = Inf /\ route n' = "".
Proof.
  split; [reflexivity|].
  apply (X3_estimate_costs_without_neighbors "A:1" example_down).
  reflexivity.
Defined.

Lemma X4_update_costs_neighbor_keeps_direct_witness :
  get "B:2" example_up = Some example_B_up /\
  is_neighbor example_B_up = true /\
  update_costs "A:1" 10 20 "B:2" [("C:3", Fin 5)] (Fin 9) example_up =
  update_costs "A:1" 10 20 "B:2" [("C:3", Fin 5)] (Fin 2) example_up /\
  forall nodes' n',
    update_costs "A:1" 10 20 "B:2" [("C:3", Fin 5)] (Fin 9) example_up =
      Ok nodes' ->
    get "B:2" nodes' = Some n' -> direct n' = direct example_B_up.
Proof.
  split; [reflexivity|]. split; [reflexivity|].
  apply (X4_update_costs_neighbor_keeps_direct "A:1" 10 20 "B:2"
           [("C:3", Fin 5)] (Fin 9) (Fin 2) example_up example_B_up).
  - reflexivity.
  - reflexivity.
Defined.

Lemma X5_update_costs_offers_advertised_route_witness :
  table_ok 10 example_up /\
  update_costs "A:1" 10 20 "B:2" [("C:3", Fin 5)] (Fin 9) example_up =
    Ok example_merged /\
  exists nD na dr,
    get "C:3" example_merged = Some nD /\
    get "B:2" example_merged = Some na /\
    is_neighbor na = true /\ direct na = Some dr /\
    le (cost nD) (add dr (Fin 5)).
Proof.
  split; [exact example_up_ok|]. split; [reflexivity|].
  apply (X5_update_costs_offers_advertised_route "A:1" 10 20 "B:2"
           [("C:3", Fin 5)] (Fin 9) example_up example_merged "C:3" (Fin 5)).
  - exact example_up_ok.
  - reflexivity.
  - reflexivity.
  - discriminate.
Defined.

Lemma example_up_down_step : step "A:1" 10 example_up example_down.
Proof.
  apply (step_linkdown "A:1" 10 example_up "B:2" Done example_down).
  - discriminate.
  - reflexivity.
Qed.

Lemma X6_step_keeps_addresses_witness :
  step "A:1" 10 example_up example_down /\
  In "B:2" (keys example_up) /\ In "B:2" (keys example_down).
Proof.
  split; [exact example_up_down_step|]. split; [simpl; auto|].
  apply (X6_step_keeps_addresses "A:1" 10 example_up example_down "B:2").
  - exact example_up_down_step.
  - simpl. auto.
Defined.

Lemma X7_reachable_vectors_known_witness :
  reachable "A:1" 10 example_routed /\ vectors_known example_routed.
Proof.
  split; [exact example_routed_reachable|].
  apply (X7_reachable_vectors_known "A:1" 10 example_routed).
  exact example_routed_reachable.
Defined.

Lemma X8_reachable_non_neighbor_shape_witness :
  reachable "A:1" 10 example_down /\
  In ("B:2", example_B_down) example_down /\
  is_neighbor example_B_down = false /\
  (never_neighbor example_B_down \/ taken_down example_B_down) /\
  forall m t, silence_monitor example_B_down = Some m -> due t m = false.
Proof.
  split; [exact example_down_reachable|]. split; [simpl; auto|].
  split; [reflexivity|].
  apply (X8_reachable_non_neighbor_shape "A:1" 10 example_down "B:2"
           example_B_down).
  - exact example_down_reachable.
  - simpl. auto.
  - reflexivity.
Defined.

Lemma X9_linkchange_known_address_witness :
  table_ok 10 example_up /\
  numbers_fit example_up = true /\
  get "B:2" example_up = Some example_B_up /\
  (is_neighbor example_B_up = true -> ltb (Fin 4) (Fin 1) = false ->
   fits (Fin 4) = true ->
     exists nodes' n',
       linkchange "A:1" "B:2" (Fin 4) example_up = Ok (Done, nodes') /\
       keys nodes' = keys example_up /\
       get "B:2" nodes' = Some n' /\ direct n' = Some (Fin 4) /\
       is_neighbor n' = true /\ costs n' = costs example_B_up /\
       saved n' = None /\
       silence_monitor n' = silence_monitor example_B_up) /\
  (is_neighbor example_B_up = false ->
     linkchange "A:1" "B:2" (Fin 4) example_up =
       Ok (NotNeighborCantChange, example_up)) /\
  (is_neighbor example_B_up = true -> ltb (Fin 4) (Fin 1) = true ->
     linkchange "A:1" "B:2" (Fin 4) example_up =
       Ok (MinimumLinkCost, example_up)).
Proof.
  split; [exact example_up_ok|]. split; [reflexivity|].
  split; [reflexivity|].
  apply (X9_linkchange_known_address "A:1" 10 "B:2" (Fin 4) example_up
           example_B_up).
  - exact example_up_ok.
  - reflexivity.
  - reflexivity.
Defined.

Lemma X10_linkdown_neighbor_witness :
  table_ok 10 example_up /\
  numbers_fit example_up = true /\
  get "B:2" example_up = Some example_B_up /\
  is_neighbor example_B_up = true /\
  exists nodes' n' d m,
    linkdown "A:1" "B:2" example_up = Ok (Done, nodes') /\
    keys nodes' = keys example_up /\
    get "B:2" nodes' = Some n' /\ is_neighbor n' = false /\
    direct example_B_up = Some d /\ saved n' = Some d /\
    direct n' = Some Inf /\ costs n' = costs example_B_up /\
    silence_monitor example_B_up = Some m /\
    silence_monitor n' = Some (cancel m) /\
    (forall t, due t (cancel m) = false) /\
    linkdown "A:1" "B:2" nodes' = Ok (NotNeighborCantTakeDown, nodes').
Proof.
  split; [exact example_up_ok|]. split; [reflexivity|].
  split; [reflexivity|]. split; [reflexivity|].
  apply (X10_linkdown_neighbor "A:1" 10 "B:2" example_up example_B_up).
  - exact example_up_ok.
  - reflexivity.
  - reflexivity.
  - reflexivity.
Defined.

Lemma X11_linkup_saved_witness :
  table_ok 10 example_down /\
  numbers_fit example_down = true /\
  get "B:2" example_down = Some example_B_down /\
  saved example_B_down = Some (Fin 2) /\
  exists nodes' n',
    linkup "A:1" "B:2" example_down = Ok (Done, nodes') /\
    keys nodes' = keys example_down /\
    get "B:2" nodes' = Some n' /\ is_neighbor n' = true /\
    direct n' = Some (Fin 2) /\ saved n' = None /\
    costs n' = costs example_B_down /\
    silence_monitor n' = silence_monitor example_B_down /\
    linkup "A:1" "B:2" nodes' = Ok (WasntPreviousNeighbor, nodes').
Proof.
  split; [exact example_down_ok|]. split; [reflexivity|].
  split; [reflexivity|]. split; [reflexivity|].
  apply (X11_linkup_saved "A:1" 10 "B:2" example_down example_B_down
           (Fin 2)).
  - exact example_down_ok.
  - reflexivity.
  - reflexivity.
  - reflexivity.
Defined.

Lemma X12_silence_expired_is_linkdown_witness :
  table_ok 10 example_up /\
  numbers_fit example_up = true /\
  get "B:2" example_up = Some example_B_up /\
  is_neighbor example_B_up = true /\
  silence_monitor example_B_up = Some (example_monitor "B:2" 0 false) /\
  exists nodes',
    linkdown "A:1" "B:2" example_up = Ok (Done, nodes') /\
    silence_expired "A:1" "B:2" (example_monitor "B:2" 0 false) example_up =
      Ok nodes' /\
    forall n' m' t,
      get "B:2" nodes' = Some n' -> silence_monitor n' = Some m' ->
      due t m' = false.
Proof.
  split; [exact example_up_ok|]. split; [reflexivity|].
  split; [reflexivity|].
  split; [reflexivity|]. split; [reflexivity|].
  apply (X12_silence_expired_is_linkdown "A:1" 10 "B:2" example_up
           example_B_up (example_monitor "B:2" 0 false)).
  - exact example_up_ok.
  - reflexivity.
  - reflexivity.
  - reflexivity.
  - reflexivity.
Defined.

Lemma example_routed_ok : table_ok 10 example_routed.
Proof. exact (proj1 (reachable_ok "A:1" 10 _ example_routed_reachable)). Qed.

Lemma X13_linkdown_removes_routes_witness :
  table_ok 10 example_routed /\
  (exists nodes',
     linkdown "A:1" "C:3" example_routed = Ok (Done, nodes') /\
     forall D n, In (D, n) nodes' -> D <> "A:1" -> route n <> "C:3").
Proof.
  split; [exact example_routed_ok|].
  eexists. split; [reflexivity|].
  apply (X13_linkdown_removes_routes "A:1" 10 "C:3" example_routed).
  - exact example_routed_ok.
  - reflexivity.
Defined.

Lemma X14_showrt_links_are_shown_neighbors_witness :
  reachable "A:1" 10 example_routed /\
  exists rows,
    show_neighbors example_routed = Ok rows /\
    (forall b c dr,
       In (b, c, dr) rows <->
       exists nb, In (b, nb) example_routed /\ is_neighbor nb = true /\
                  c = cost nb /\ direct nb = Some dr) /\
    (forall D n, In (D, n) example_routed -> D <> "A:1" ->
       In (D, cost n, route n) (showrt "A:1" example_routed)) /\
    forall D c nh, In (D, c, nh) (showrt "A:1" example_routed) ->
      D <> "A:1" /\
      ((c = Inf /\ nh = "") \/
       (c <> Inf /\ exists c' dr, In (nh, c', dr) rows)).
Proof.
  split; [exact example_routed_reachable|].
  apply (X14_showrt_links_are_shown_neighbors "A:1" 10 example_routed).
  exact example_routed_reachable.
Defined.

Lemma X15_broadcast_lists_every_address_witness :
  broadcast_costs "A:1" example_routed = Ok [("C:3", example_payload)] /\
  In ("C:3", example_payload) [("C:3", example_payload)] /\
  keys (payload_costs example_payload) = keys example_routed.
Proof.
  split; [reflexivity|]. split; [simpl; auto|].
  apply (X15_broadcast_lists_every_address "A:1" example_routed
           [("C:3", example_payload)] "C:3" example_payload).
  - reflexivity.
  - simpl. auto.
Defined.

Lemma X16_reachable_handlers_return_witness :
  reachable "A:1" 10 example_routed /\
  numbers_fit example_routed = true /\
  (forall now a vec d,
     a <> "" -> vector_fits vec = true -> fits d = true ->
     exists nodes',
       update_costs "A:1" 10 now a vec d example_routed = Ok nodes') /\
  (forall a d,
     fits d = true ->
     exists r nodes', linkchange "A:1" a d example_routed = Ok (r, nodes')) /\
  (forall a,
     exists r nodes', linkdown "A:1" a example_routed = Ok (r, nodes')) /\
  (forall a,
     exists r nodes', linkup "A:1" a example_routed = Ok (r, nodes')) /\
  (forall a monitor,
     exists nodes',
       silence_expired "A:1" a monitor example_routed = Ok nodes').
Proof.
  split; [exact example_routed_reachable|]. split; [reflexivity|].
  apply (X16_reachable_handlers_return "A:1" 10 example_routed).
  - exact example_routed_reachable.
  - reflexivity.
Defined.
